(** * A same-domain breadth-first web crawler: model and verification

    This development embeds [src/lib/crawler.ts] (URL discovery, fetching with
    retries, single-page crawling, the crawl orchestrator and the two pure
    text helpers) together with the in-memory page store of [storage.ts],
    and settles the properties the specification states about them.

    Conventions.
    - A JavaScript string is modelled by [string]: a sequence of code units,
      here restricted to the 8-bit range.  [String.length] is [.length].
    - What the program obtains from its platform (the network, the URL
      parser, the HTML parser, the clock and the random source) is gathered
      in the record [Platform]; every function of the crawler takes it as
      a parameter, so every theorem holds for every platform behaviour.
    - Asynchronous code is sequential here: every [await] is immediately
      followed by its continuation, so a promise is modelled by a
      computation in the state-and-exception monad [M]. *)

From Stdlib Require Import Ascii String DecimalString NArith.
From stdpp Require Import gmap strings list.
From Equations Require Import Equations.

Abbreviation strlen := String.length.

(** ** JavaScript string primitives used by the crawler *)

Module Js.

(** [s.startsWith(search)] *)
Fixpoint startsWith (s search : string) {struct search} : bool :=
  match search, s with
  | EmptyString, _ => true
  | String _ _, EmptyString => false
  | String a search', String b s' =>
      if Ascii.eqb a b then startsWith s' search' else false
  end.

(** [s.includes(search)] *)
Fixpoint includes (s search : string) : bool :=
  startsWith s search ||
  match s with
  | EmptyString => false
  | String _ s' => includes s' search
  end.

(** The characters matched by [\s] and removed by [trim()]: the
    WhiteSpace and LineTerminator code units below 256. *)
Definition is_space (c : ascii) : bool :=
  match c with
  | "009" | "010" | "011" | "012" | "013" | " " | "160" => true
  | _ => false
  end%char.

Fixpoint trimStart (s : string) : string :=
  match s with
  | EmptyString => EmptyString
  | String c r => if is_space c then trimStart r else s
  end.

Fixpoint trimEnd (s : string) : string :=
  match s with
  | EmptyString => EmptyString
  | String c r =>
      match trimEnd r with
      | EmptyString => if is_space c then EmptyString else String c EmptyString
      | t => String c t
      end
  end.

(** [s.trim()] *)
Definition trim (s : string) : string := trimEnd (trimStart s).

(** [s.split(/[C]+/)] for a character class [C], following the
    SplitMatcher loop of String.prototype.split: a match of the regular
    expression is a maximal run of class characters; the text before the
    first run, between two runs and after the last run are the fields, and
    a run at the very start or end leaves an empty field there.  The empty
    string has no match and yields the single field [""].
    [in_run] tells that the previous character belonged to a run. *)
Fixpoint split_from (sep : ascii -> bool) (s : string) (in_run : bool)
  : list string :=
  match s with
  | EmptyString => [EmptyString]
  | String c r =>
      if sep c then
        if in_run then split_from sep r true
        else EmptyString :: split_from sep r true
      else
        match split_from sep r false with
        | field :: fields => String c field :: fields
        | [] => [String c EmptyString]
        end
  end.

Definition split (sep : ascii -> bool) (s : string) : list string :=
  split_from sep s false.

(** [parts.join(sep)] *)
Fixpoint join (sep : string) (parts : list string) : string :=
  match parts with
  | [] => ""
  | [x] => x
  | x :: rest => x +:+ sep +:+ join sep rest
  end.

(** [s.substring(start, end)]: both indices are clamped to the length and
    swapped when [start > end]. *)
Definition substring (s : string) (start end_ : nat) : string :=
  let lo := Nat.min start end_ in
  let hi := Nat.max start end_ in
  String.substring lo (hi - lo) s.

(** ASCII case folding, as the [i] flag applies it to a pattern made of
    ASCII letters. *)
Definition lower (c : ascii) : ascii :=
  let n := nat_of_ascii c in
  if (65 <=? n) && (n <=? 90) then ascii_of_nat (n + 32) else c.

Fixpoint toLower (s : string) : string :=
  match s with
  | EmptyString => EmptyString
  | String c r => String (lower c) (toLower r)
  end.

(** [s.endsWith(suffix)] *)
Fixpoint endsWith (s suffix : string) : bool :=
  String.eqb s suffix ||
  match s with
  | EmptyString => false
  | String _ r => endsWith r suffix
  end.

(** Template interpolation of a non-negative integer. *)
Definition of_number (n : N) : string := NilZero.string_of_uint (N.to_uint n).

End Js.

(** ** ContentExtractor: summary and word count *)

Definition sentence_end (c : ascii) : bool :=
  match c with
  | "." | "!" | "?" => true
  | _ => false
  end%char.

(** [function generateSummary(content)] *)
Definition generateSummary (content : string) : string :=
  let sentences :=
    List.filter (fun s => 20 <? strlen (Js.trim s)) (Js.split sentence_end content) in
  let summary := Js.trim (Js.join ". " (take 3 sentences)) in
  if 300 <? strlen summary
  then Js.substring summary 0 300 +:+ "..."
  else summary +:+ ".".

(** [content.split(/\s+/).filter((word) => word.length > 0).length] *)
Definition countWords (content : string) : nat :=
  length (List.filter (fun word => 0 <? strlen word) (Js.split Js.is_space content)).

(** ** Effects: exceptions, the world, and the monad of the crawler *)

(** What a [catch] clause can receive: an [Error] object with its message,
    or any other thrown value. *)
Inductive Thrown : Type :=
| JsError (message : string)
| NonError.

(** [error instanceof Error ? error.message : "Unknown error"] *)
Definition message_of (error : Thrown) : string :=
  match error with
  | JsError message => message
  | NonError => "Unknown error"
  end.

Inductive outcome (A : Type) : Type :=
| Returned (a : A)
| Threw (e : Thrown).
Arguments Returned {A} a.
Arguments Threw {A} e.

Inductive Status : Type := Pending | Crawling | Completed | Error.

(** [interface CrawledPage] *)
Module Page.
Record t : Type := Build {
  id : string;
  url : string;
  title : string;
  content : string;
  status : Status;
  crawledAt : option string;
  error : option string;
  summary : option string;
  wordCount : option nat
}.
End Page.

(** [interface CrawlProgress] *)
Record CrawlProgress : Type := {
  total : nat;
  completed : nat;
  current : string
}.

(** The objects handed to the progress callback. *)
Inductive Event : Type :=
| EvProgress (progress : CrawlProgress)
| EvPage (page : Page.t)
| EvComplete (totalPages : nat)
| EvError (error : string).

(** The state outside the crawler's local variables:
    - [requests]: the URLs passed to [fetch] so far, oldest first;
    - [entropy]: how many times the clock or the random source was read;
    - [pages]: the [Map] of [storage.ts];
    - [delivered]: the events the progress callback has been called with,
      oldest first, whether the call returned or threw. *)
Record World : Type := {
  requests : list string;
  entropy : nat;
  pages : gmap string Page.t;
  delivered : list Event
}.

Definition M (A : Type) : Type := World -> World * outcome A.

Definition ret {A} (a : A) : M A := fun w => (w, Returned a).

Definition throw {A} (e : Thrown) : M A := fun w => (w, Threw e).

Definition bind {A B} (c : M A) (k : A -> M B) : M B :=
  fun w =>
    match c w with
    | (w', Returned a) => k a w'
    | (w', Threw e) => (w', Threw e)
    end.

(** [try { body } catch (error) { handler }] *)
Definition try_catch {A} (body : M A) (handler : Thrown -> M A) : M A :=
  fun w =>
    match body w with
    | (w', Returned a) => (w', Returned a)
    | (w', Threw e) => handler e w'
    end.

(** A platform call that touches no state. *)
Definition lift {A} (o : outcome A) : M A := fun w => (w, o).

Declare Scope crawl_scope.
Delimit Scope crawl_scope with crawl.
Notation "'let*' x ':=' c 'in' k" := (bind c (fun x => k))
  (at level 10, x name, c at level 100, k at level 200) : crawl_scope.
Notation "'run' c 'in' k" := (bind c (fun _ => k))
  (at level 10, c at level 100, k at level 200) : crawl_scope.
Open Scope crawl_scope.

(** ** The platform *)

(** The fields of a [Response] the crawler reads. *)
Record Response : Type := {
  ok : bool;
  http_status : N;
  statusText : string;
  text : outcome string
}.

(** The fields of a [URL] object the crawler reads. *)
Module URL.
Record t : Type := Build {
  protocol : string;
  host : string;
  hostname : string;
  href : string
}.
End URL.

Record Platform : Type := {
  (** the parsed HTML document, [cheerio.load(html)] *)
  Document : Type;
  (** the answer of the network to [fetch(url, ...)], which may depend on
      all the requests made before; [Threw] is a network failure or the
      15 second abort *)
  fetch : list string -> string -> outcome Response;
  (** [new URL(s)] and [new URL(s, base)] *)
  new_URL : string -> outcome URL.t;
  new_URL_base : string -> string -> outcome URL.t;
  cheerio_load : string -> outcome Document;
  (** the [href] attributes of [$("a[href]")], in document order *)
  anchor_hrefs : Document -> list string;
  (** [$("title").text()], [$("h1").first().text()] and the [content]
      attributes of the two title [meta] elements *)
  title_text : Document -> string;
  h1_text : Document -> string;
  og_title : Document -> option string;
  meta_title : Document -> option string;
  (** the value of [extractMainContent($)]: the pruning of the DOM, the
      selector cascade and the clean-up of the selected text all go through
      the HTML library; every property below holds for whatever content it
      yields, or when it throws *)
  extractMainContent : Document -> outcome string;
  (** [Math.random().toString(36).substring(2) + Date.now().toString(36)]
      and [new Date().toISOString()] at the n-th reading *)
  random_id : nat -> string;
  iso_time : nat -> string
}.

Section Crawler.

Context (P : Platform).

Definition do_fetch (url : string) : M Response :=
  fun w =>
    ({| requests := requests w ++ [url]; entropy := entropy w;
        pages := pages w; delivered := delivered w |},
     fetch P (requests w) url).

(** [function generateId()] *)
Definition generateId : M string :=
  fun w =>
    ({| requests := requests w; entropy := S (entropy w);
        pages := pages w; delivered := delivered w |},
     Returned (random_id P (entropy w))).

Definition toISOString_now : M string :=
  fun w =>
    ({| requests := requests w; entropy := S (entropy w);
        pages := pages w; delivered := delivered w |},
     Returned (iso_time P (entropy w))).

(** [storage.ts]: [pages.set(page.id, page)] *)
Definition storePage (page : Page.t) : M unit :=
  fun w =>
    ({| requests := requests w; entropy := entropy w;
        pages := <[Page.id page := page]> (pages w);
        delivered := delivered w |},
     Returned tt).

(** [type ProgressCallback = (data: any) => void], the second parameter
    of [crawlWebsite].  To the crawler a call returns or throws, and which
    of the two may depend on all the events the callback received before.
    What the callback does with an event is its caller's business and is
    kept out of [World]: the callback is taken not to call the page store
    or the network itself, as the one of the crawl route, which writes the
    event to a stream. *)
Definition ProgressCallback : Type := list Event -> Event -> outcome unit.

(** A call [onProgress(data)]: the event is handed over, and the call
    returns or throws as the callback decides. *)
Definition onProgress (callback : ProgressCallback) (data : Event) : M unit :=
  fun w =>
    ({| requests := requests w; entropy := entropy w;
        pages := pages w; delivered := delivered w ++ [data] |},
     callback (delivered w) data).

(** *** Fetcher *)

Definition blocked_site_message (h : string) : string :=
  "This website (" +:+ h +:+
  ") blocks automated crawling. Try a different website like example.com, wikipedia.org, or your own website.".

(** The [for (let attempt = 1; attempt <= maxRetries; attempt++)] loop of
    [fetchWithRetry]; [left] counts the iterations still allowed.  The
    back-off sleep between attempts changes nothing that is modelled. *)
Fixpoint fetch_attempts (url : string) (maxRetries attempt left : nat)
  : M Response :=
  match left with
  | 0 => throw (JsError "Max retries exceeded")
  | S left' =>
      try_catch (do_fetch url)
        (fun error =>
           if attempt =? maxRetries then
             if Js.includes url "google.com" || Js.includes url "facebook.com"
                || Js.includes url "twitter.com"
             then
               let* u := lift (new_URL P url) in
               throw (JsError (blocked_site_message (URL.hostname u)))
             else throw error
           else fetch_attempts url maxRetries (S attempt) left')
  end.

(** [async function fetchWithRetry(url, maxRetries)] *)
Definition fetchWithRetry (url : string) (maxRetries : nat) : M Response :=
  fetch_attempts url maxRetries 1 maxRetries.

(** *** UrlDiscoverer *)

(** The three local collections of [discoverUrls]. *)
Record Frontier : Type := {
  visitedUrls : gset string;
  urlsToVisit : list string;
  discoveredUrls : list string
}.

Definition blockedDomains : list string :=
  ["google.com"; "facebook.com"; "twitter.com"; "instagram.com"; "linkedin.com"].

Definition blocked_domain_message (baseDomain : string) : string :=
  "The domain " +:+ baseDomain +:+
  " typically blocks automated crawling. Please try a different website like example.com, wikipedia.org, or your own website.".

Definition non_html_extensions : list string :=
  ["pdf"; "jpg"; "jpeg"; "png"; "gif"; "zip"; "exe"; "doc"; "docx"; "xls";
   "xlsx"; "ppt"; "pptx"; "mp4"; "mp3"; "avi"; "mov"].

(** [absoluteUrl.match(/\.(pdf|jpg|...|mov)$/i)] *)
Definition matches_non_html (absoluteUrl : string) : bool :=
  existsb (fun ext => Js.endsWith (Js.toLower absoluteUrl) ("." +:+ ext))
    non_html_extensions.

(** The four-way normalisation of an [href]. *)
Definition absolute_of (baseUrl : URL.t) (currentUrl href : string)
  : outcome string :=
  if Js.startsWith href "http" then Returned href
  else if Js.startsWith href "//" then Returned (URL.protocol baseUrl +:+ href)
  else if Js.startsWith href "/" then
    Returned (URL.protocol baseUrl +:+ "//" +:+ URL.host baseUrl +:+ href)
  else
    match new_URL_base P href currentUrl with
    | Returned u => Returned (URL.href u)
    | Threw e => Threw e
    end.

(** The callback of [$("a[href]").each(...)] for one anchor: the link it
    pushes onto [links], if any.  Whatever is thrown inside is caught and
    the anchor skipped. *)
Definition accepted_link (baseUrl : URL.t) (currentUrl : string)
    (st : Frontier) (href : string) : option string :=
  if String.eqb href "" then None
  else
    match absolute_of baseUrl currentUrl href with
    | Threw _ => None
    | Returned absoluteUrl =>
        match new_URL P absoluteUrl with
        | Threw _ => None
        | Returned urlObj =>
            if String.eqb (URL.hostname urlObj) (URL.hostname baseUrl)
               && negb (bool_decide (absoluteUrl ∈ visitedUrls st))
               && negb (bool_decide (absoluteUrl ∈ urlsToVisit st))
               && negb (Js.includes absoluteUrl "#")
               && negb (matches_non_html absoluteUrl)
               && negb (Js.includes absoluteUrl "mailto:")
               && negb (Js.includes absoluteUrl "tel:")
            then Some absoluteUrl
            else None
        end
    end.

(** The [try] block of the discovery loop, run after [currentUrl] has been
    marked: fetch, parse, collect [links], push the first ten. *)
Definition scan_page (baseUrl : URL.t) (currentUrl : string) (st : Frontier)
  : M Frontier :=
  let* response := fetchWithRetry currentUrl 2 in
  if negb (ok response) then ret st
  else
    let* html := lift (text response) in
    let* doc := lift (cheerio_load P html) in
    let links := omap (accepted_link baseUrl currentUrl st) (anchor_hrefs P doc) in
    ret {| visitedUrls := visitedUrls st;
           urlsToVisit := urlsToVisit st ++ take 10 links;
           discoveredUrls := discoveredUrls st |}.

(** [visitedUrls.add(currentUrl); discoveredUrls.push(currentUrl)] with
    [currentUrl] already shifted off the queue. *)
Definition mark_discovered (currentUrl : string) (rest : list string)
    (st : Frontier) : Frontier :=
  {| visitedUrls := {[currentUrl]} ∪ visitedUrls st;
     urlsToVisit := rest;
     discoveredUrls := discoveredUrls st ++ [currentUrl] |}.

(** One iteration of the [while] loop of [discoverUrls]. *)
Definition discover_step (baseUrl : URL.t) (st : Frontier) (w : World)
  : World * Frontier :=
  match urlsToVisit st with
  | [] => (w, st)
  | currentUrl :: rest =>
      if bool_decide (currentUrl ∈ visitedUrls st) then
        (w, {| visitedUrls := visitedUrls st;
               urlsToVisit := rest;
               discoveredUrls := discoveredUrls st |})
      else
        let st1 := mark_discovered currentUrl rest st in
        match scan_page baseUrl currentUrl st1 w with
        | (w', Returned st2) => (w', st2)
        | (w', Threw _) => (w', st1)
        end
  end.

(** [urlsToVisit.length > 0 && discoveredUrls.length < 50] *)
Definition loop_guard (st : Frontier) : bool :=
  (0 <? length (urlsToVisit st)) && (length (discoveredUrls st) <? 50).

(** What decreases at every iteration: a skipped URL shortens the queue,
    a discovered one uses a slot and queues at most ten links. *)
Definition budget (st : Frontier) : nat :=
  11 * (50 - length (discoveredUrls st)) + length (urlsToVisit st).

Definition inspect {A} (a : A) : {b : A | a = b} := exist _ a eq_refl.

(** The [while] loop of [discoverUrls], from the state [s] on. *)
Equations? discover_loop (baseUrl : URL.t) (s : World * Frontier)
  : World * Frontier by wf (budget s.2) lt :=
  discover_loop baseUrl s with inspect (loop_guard s.2) => {
    | exist _ true Hguard :=
        discover_loop baseUrl (discover_step baseUrl s.2 s.1);
    | exist _ false _ := s }.
Proof.
  rename f into st. unfold loop_guard in Hguard.
  apply andb_prop in Hguard as [Hq Hd].
  apply Nat.ltb_lt in Hq, Hd.
  unfold discover_step, budget.
  destruct (urlsToVisit st) as [|currentUrl rest] eqn:Hqueue;
    cbn [length] in Hq; [lia|].
  case_bool_decide; cbn [snd urlsToVisit discoveredUrls length]; [lia|].
  assert (Hfail : 11 * (50 - length (discoveredUrls st ++ [currentUrl]))
                  + length rest
                  < 11 * (50 - length (discoveredUrls st)) + S (length rest))
    by (rewrite length_app; cbn [length]; lia).
  unfold scan_page, bind, ret, lift.
  destruct (fetchWithRetry currentUrl 2 w) as [w1 [response|e]];
    cbn [snd]; [|exact Hfail].
  destruct (ok response); cbn [negb snd]; [|exact Hfail].
  destruct (text response) as [html|e]; cbn [snd]; [|exact Hfail].
  destruct (cheerio_load P html) as [doc|e]; cbn [snd]; [|exact Hfail].
  cbn [urlsToVisit discoveredUrls mark_discovered].
  rewrite !length_app, length_take. cbn [length]. lia.
Qed.

(** [async function discoverUrls(startUrl)] *)
Definition discoverUrls (startUrl : string) : M (list string) :=
  let* baseUrl := lift (new_URL P startUrl) in
  let baseDomain := URL.hostname baseUrl in
  if existsb (fun domain => Js.includes baseDomain domain) blockedDomains
  then throw (JsError (blocked_domain_message baseDomain))
  else
    fun w =>
      let s := discover_loop baseUrl
                 (w, {| visitedUrls := ∅;
                        urlsToVisit := [startUrl];
                        discoveredUrls := [] |}) in
      (s.1, Returned (discoveredUrls s.2)).

(** *** PageCrawler *)

(** The title cascade of [crawlSinglePage]; an empty string is falsy. *)
Definition resolve_title (doc : Document P) : string :=
  let title := Js.trim (title_text P doc) in
  let title := if String.eqb title "" then Js.trim (h1_text P doc) else title in
  let title := if String.eqb title "" then default "" (og_title P doc) else title in
  let title := if String.eqb title "" then default "" (meta_title P doc) else title in
  if String.eqb title "" then "Untitled Page" else title.

Definition http_error_message (response : Response) : string :=
  "HTTP " +:+ Js.of_number (http_status response) +:+ ": " +:+ statusText response.

(** The [try] block of [crawlSinglePage]. *)
Definition crawl_attempt (url pageId : string) : M Page.t :=
  let* response := fetchWithRetry url 3 in
  if negb (ok response) then throw (JsError (http_error_message response))
  else
    let* html := lift (text response) in
    let* doc := lift (cheerio_load P html) in
    let title := resolve_title doc in
    let* content := lift (extractMainContent P doc) in
    let summary := generateSummary content in
    let wordCount := countWords content in
    let* crawledAt := toISOString_now in
    let completedPage :=
      {| Page.id := pageId;
         Page.url := url;
         Page.title := Js.substring title 0 200;
         Page.content := content;
         Page.summary := Some summary;
         Page.wordCount := Some wordCount;
         Page.status := Completed;
         Page.crawledAt := Some crawledAt;
         Page.error := None |} in
    run storePage completedPage in
    ret completedPage.

(** The record built by both [catch] clauses. *)
Definition error_page (pageId url : string) (error : Thrown)
    (crawledAt : string) : Page.t :=
  {| Page.id := pageId;
     Page.url := url;
     Page.title := "Error";
     Page.content := "";
     Page.status := Error;
     Page.error := Some (message_of error);
     Page.crawledAt := Some crawledAt;
     Page.wordCount := Some 0;
     Page.summary := None |}.

(** [export async function crawlSinglePage(url)] *)
Definition crawlSinglePage (url : string) : M Page.t :=
  let* pageId := generateId in
  try_catch (crawl_attempt url pageId)
    (fun error =>
       let* crawledAt := toISOString_now in
       let errorPage := error_page pageId url error crawledAt in
       run storePage errorPage in
       ret errorPage).

(** *** CrawlOrchestrator *)

(** The [for (const url of discoveredUrls)] loop of [crawlWebsite]; the
    result is the final value of [completedPages].  The one second pause
    after each page changes nothing that is modelled. *)
Fixpoint crawl_each (callback : ProgressCallback) (totalPages : nat)
    (urls : list string) (completedPages : nat) : M nat :=
  match urls with
  | [] => ret completedPages
  | url :: rest =>
      run onProgress callback
            (EvProgress {| total := totalPages;
                           completed := completedPages;
                           current := url |}) in
      let* completedPages' :=
        try_catch
          (let* page := crawlSinglePage url in
           run onProgress callback (EvPage page) in
           ret (S completedPages))
          (fun error =>
             let* pageId := generateId in
             let* crawledAt := toISOString_now in
             let errorPage := error_page pageId url error crawledAt in
             run storePage errorPage in
             run onProgress callback (EvPage errorPage) in
             ret (S completedPages)) in
      crawl_each callback totalPages rest completedPages'
  end.

(** [export async function crawlWebsite(startUrl, onProgress)] *)
Definition crawlWebsite (startUrl : string) (callback : ProgressCallback)
  : M unit :=
  try_catch
    (let* discovered := discoverUrls startUrl in
     if length discovered =? 0 then
       throw (JsError "No URLs discovered. Please check if the website is accessible.")
     else
       let totalPages := length discovered in
       run onProgress callback
             (EvProgress {| total := totalPages;
                            completed := 0;
                            current := startUrl |}) in
       let* completedPages := crawl_each callback totalPages discovered 0 in
       onProgress callback (EvComplete completedPages))
    (fun error => onProgress callback (EvError (message_of error))).

End Crawler.

(** ** The rest of [storage.ts] *)

(** [getPageById(id)]: [pages.get(id) || null] *)
Definition getPageById (id : string) : M (option Page.t) :=
  fun w => (w, Returned (pages w !! id)).

(** [deletePage(id)]: [pages.delete(id)] *)
Definition deletePage (id : string) : M unit :=
  fun w =>
    ({| requests := requests w; entropy := entropy w;
        pages := delete id (pages w); delivered := delivered w |},
     Returned tt).

(** [clearAllPages()]: [pages.clear()] *)
Definition clearAllPages : M unit :=
  fun w =>
    ({| requests := requests w; entropy := entropy w;
        pages := ∅; delivered := delivered w |},
     Returned tt).

(** [Partial<CrawledPage>] for the interface of [storage.ts]: a key is
    absent ([None]) or present; the two optional fields can be present
    and undefined. *)
Module Updates.
Record t : Type := Build {
  id : option string;
  url : option string;
  title : option string;
  content : option string;
  status : option Status;
  crawledAt : option (option string);
  error : option (option string)
}.
End Updates.



(** The [Map] of [storage.ts] with the order in which it is iterated:
    the entries in the order their keys were first set.  [World] keeps the
    finite map [view] of it, which is all that lookups depend on;
    [getStoredPages] depends on the order. *)
Module PageMap.

Definition t : Type := list (string * Page.t).

(** [pages.set(key, value)]: an existing key keeps its place. *)
Fixpoint set (key : string) (value : Page.t) (m : t) : t :=
  match m with
  | [] => [(key, value)]
  | (k, v) :: rest =>
      if String.eqb k key then (key, value) :: rest
      else (k, v) :: set key value rest
  end.

(** [pages.get(key)] *)
Fixpoint get (key : string) (m : t) : option Page.t :=
  match m with
  | [] => None
  | (k, v) :: rest => if String.eqb k key then Some v else get key rest
  end.

(** [pages.delete(key)] *)
Fixpoint remove (key : string) (m : t) : t :=
  match m with
  | [] => []
  | (k, v) :: rest =>
      if String.eqb k key then rest else (k, v) :: remove key rest
  end.

Definition keys (m : t) : list string := map fst m.

(** [storePage(page)] *)
Definition storePage (page : Page.t) (m : t) : t := set (Page.id page) page m.

(** [getStoredPages()]: [Array.from(pages.values())] *)
Definition getStoredPages (m : t) : list Page.t := map snd m.

(** The finite map that [World] keeps. *)
Definition view (m : t) : gmap string Page.t := list_to_map m.

End PageMap.

(** ** The client's list of pages ([layout.tsx]) *)

(** The update of [crawledPages] on a page event: replace the entries with
    the same id, or append. *)
Definition upsertPage (prev : list Page.t) (page : Page.t) : list Page.t :=
  match List.find (fun p => String.eqb (Page.id p) (Page.id page)) prev with
  | Some _ =>
      map (fun p => if String.eqb (Page.id p) (Page.id page) then page else p) prev
  | None => prev ++ [page]
  end.

(** The update of [crawledPages] after a delete. *)
Definition removePage (prev : list Page.t) (pageId : string) : list Page.t :=
  List.filter (fun p => negb (String.eqb (Page.id p) pageId)) prev.

(** [crawledPages] after the events of a run, starting from the empty list
    that [startCrawl] sets. *)
Definition clientPages (events : list Event) : list Page.t :=
  fold_left (fun prev data =>
               match data with
               | EvPage page => upsertPage prev page
               | _ => prev
               end) events [].

(** ** The text clean-up of [extractMainContent] *)

Module Clean.

(** [.replace(/\s+/g, " ")]; [in_run] tells that the previous character
    was whitespace. *)
Fixpoint collapse_whitespace (s : string) (in_run : bool) : string :=
  match s with
  | EmptyString => EmptyString
  | String c r =>
      if Js.is_space c then
        if in_run then collapse_whitespace r true
        else String " " (collapse_whitespace r true)
      else String c (collapse_whitespace r false)
  end.

(** The length of the longest prefix of [s] that matches [\s*\n], if one
    does: the greedy [\s*] gives characters back until a line feed
    follows. *)
Fixpoint blank_lines_length (s : string) : option nat :=
  match s with
  | EmptyString => None
  | String c r =>
      if Js.is_space c then
        match blank_lines_length r with
        | Some k => Some (S k)
        | None => if Ascii.eqb c "010" then Some 1 else None
        end
      else None
  end.

(** [.replace(/\n\s*\n/g, "\n")]; [skip] counts the characters of the
    current match still to be dropped. *)
Fixpoint replace_blank_lines (s : string) (skip : nat) : string :=
  match s with
  | EmptyString => EmptyString
  | String c r =>
      match skip with
      | S k => replace_blank_lines r k
      | 0 =>
          if Ascii.eqb c "010" then
            match blank_lines_length r with
            | Some k => String "010" (replace_blank_lines r k)
            | None => String c (replace_blank_lines r 0)
            end
          else String c (replace_blank_lines r 0)
      end
  end.

(** [.replace(/\t/g, " ")] *)
Fixpoint tabs_to_spaces (s : string) : string :=
  match s with
  | EmptyString => EmptyString
  | String c r =>
      String (if Ascii.eqb c "009" then " "%char else c) (tabs_to_spaces r)
  end.

(** A match of a pattern of ASCII letters and spaces under the [i] flag,
    at the start of [s]. *)
Fixpoint starts_with_ci (s pattern : string) {struct pattern} : bool :=
  match pattern, s with
  | EmptyString, _ => true
  | String _ _, EmptyString => false
  | String a pattern', String b s' =>
      Ascii.eqb (Js.lower a) (Js.lower b) && starts_with_ci s' pattern'
  end.

(** [.replace(/phrase/gi, "")] for a non-empty phrase: the matches are
    taken from left to right and do not overlap. *)
Fixpoint remove_phrase (phrase : string) (s : string) (skip : nat) : string :=
  match s with
  | EmptyString => EmptyString
  | String c r =>
      match skip with
      | S k => remove_phrase phrase r k
      | 0 =>
          if starts_with_ci s phrase
          then remove_phrase phrase r (strlen phrase - 1)
          else String c (remove_phrase phrase r 0)
      end
  end.

(** [extractMainContent] from [content = content.replace(/\s+/g, " ")] on,
    applied to the text selected from the document. *)
Definition cleanContent (content : string) : string :=
  let content :=
    Js.trim (tabs_to_spaces
               (replace_blank_lines (collapse_whitespace content false) 0)) in
  let content :=
    remove_phrase "Search"
      (remove_phrase "Menu"
         (remove_phrase "Skip to content"
            (remove_phrase "Skip to main content" content 0) 0) 0) 0 in
  Js.substring content 0 15000.

End Clean.

(** ** The API routes *)

(** What a route answers: [NextResponse.json(page)] and
    [NextResponse.json({ success: true })] with status 200, an error
    object with its status, or the PDF with its [Content-Disposition]
    header. *)
Inductive Reply : Type :=
| ReplyPage (page : Page.t)
| ReplySuccess
| ReplyError (http_code : N) (error : string)
| ReplyPdf (body : string) (disposition : string).

Module PdfExport.

(** The characters that [/[^a-z0-9]/gi] leaves in place. *)
Definition keeps (c : ascii) : bool :=
  let n := nat_of_ascii c in
  ((48 <=? n) && (n <=? 57)) || ((65 <=? n) && (n <=? 90))
  || ((97 <=? n) && (n <=? 122)).

(** [title.replace(/[^a-z0-9]/gi, "_")] *)
Fixpoint replace_others (s : string) : string :=
  match s with
  | EmptyString => EmptyString
  | String c r => String (if keeps c then c else "_"%char) (replace_others r)
  end.

(** [toLowerCase()] on 8-bit code units: the ASCII capitals and the
    accented capitals of Latin-1. *)
Definition lower_char (c : ascii) : ascii :=
  let n := nat_of_ascii c in
  if ((65 <=? n) && (n <=? 90)) || ((192 <=? n) && (n <=? 214))
     || ((216 <=? n) && (n <=? 222))
  then ascii_of_nat (n + 32) else c.

Fixpoint toLowerCase (s : string) : string :=
  match s with
  | EmptyString => EmptyString
  | String c r => String (lower_char c) (toLowerCase r)
  end.

(** The file name between the quotes of the header. *)
Definition filename (title : string) : string :=
  toLowerCase (replace_others title) +:+ ".pdf".

Definition quote : string := String "034" EmptyString.

(** [`attachment; filename="${...}.pdf"`] *)
Definition disposition (title : string) : string :=
  "attachment; filename=" +:+ quote +:+ filename title +:+ quote.

End PdfExport.

Section Routes.

Context (P : Platform).

(** [lib/pdf-generator] is not part of the sources: its function is a
    parameter. *)
Variable generatePDF : Page.t -> outcome string.

(** [api/recrawl/route.ts], [POST].  [body] is the outcome of
    [request.json()] with the [url] of the object it yields: absent, or a
    string (the only values its clients send). *)
Definition recrawl_POST (body : outcome (option string)) : M Reply :=
  try_catch
    (let* url := lift body in
     match url with
     | None => ret (ReplyError 400 "URL is required")
     | Some url =>
         if String.eqb url "" then ret (ReplyError 400 "URL is required")
         else
           let* page := crawlSinglePage P url in
           ret (ReplyPage page)
     end)
    (fun _ => ret (ReplyError 500 "Failed to re-crawl page")).

(** [api/pages/[id]/route.ts], [GET]; [params] is the outcome of awaiting
    the route parameters. *)
Definition page_GET (params : outcome string) : M Reply :=
  try_catch
    (let* id := lift params in
     let* page := getPageById id in
     match page with
     | None => ret (ReplyError 404 "Page not found")
     | Some page => ret (ReplyPage page)
     end)
    (fun _ => ret (ReplyError 500 "Failed to get page")).

(** [api/pages/[id]/route.ts], [DELETE] *)
Definition page_DELETE (params : outcome string) : M Reply :=
  try_catch
    (let* id := lift params in
     run deletePage id in
     ret ReplySuccess)
    (fun _ => ret (ReplyError 500 "Failed to delete page")).

(** The PDF export route, [GET] *)
Definition export_GET (params : outcome string) : M Reply :=
  try_catch
    (let* id := lift params in
     let* page := getPageById id in
     match page with
     | None => ret (ReplyError 404 "Page not found")
     | Some page =>
         let* pdfBuffer := lift (generatePDF page) in
         ret (ReplyPdf pdfBuffer (PdfExport.disposition (Page.title page)))
     end)
    (fun _ => ret (ReplyError 500 "Failed to generate PDF")).

End Routes.

(** ** A small simulated web, used to run the crawler on concrete inputs *)

Module Demo.

(** The text before the first occurrence of [stop]. *)
Fixpoint before (stop : ascii) (s : string) : string :=
  match s with
  | EmptyString => EmptyString
  | String c r => if Ascii.eqb c stop then EmptyString else String c (before stop r)
  end.

(** The text after the first occurrence of ["://"], if there is one. *)
Fixpoint after_scheme (s : string) : option string :=
  match s with
  | EmptyString => None
  | String c r =>
      if Js.startsWith s "://" then Some (String.substring 3 (strlen s) s)
      else after_scheme r
  end.

(** [new URL(s)] on inputs of the shape [scheme://host[:port][/...]]. *)
Definition parse_url (s : string) : outcome URL.t :=
  match after_scheme s with
  | None => Threw (JsError "Invalid URL")
  | Some r =>
      let authority := before "/" r in
      if String.eqb authority "" then Threw (JsError "Invalid URL")
      else Returned {| URL.protocol := before ":" s +:+ ":";
                       URL.host := authority;
                       URL.hostname := before ":" authority;
                       URL.href := s |}
  end.

Definition home : string := "https://example.com/".

Definition home_html : string :=
  "<a href=/a>A</a><a href=/a>A again</a><main>Hello world. This works.</main>".

(** One reachable page, the seed; every other request fails on the
    network. *)
Definition network (history : list string) (url : string) : outcome Response :=
  if String.eqb url home then
    Returned {| ok := true; http_status := 200; statusText := "OK";
                text := Returned home_html |}
  else Threw (JsError "fetch failed").

(** What the HTML library finds in a document. *)
Record Doc : Type := { anchors : list string; main_text : string }.

(** The seed page carries the same link twice. *)
Definition parse_html (html : string) : outcome Doc :=
  if String.eqb html home_html then
    Returned {| anchors := ["/a"; "/a"];
                main_text := "Hello world. This works." |}
  else Returned {| anchors := []; main_text := "" |}.

Definition platform : Platform :=
  {| Document := Doc;
     fetch := network;
     new_URL := parse_url;
     new_URL_base := fun s b => Threw (JsError "Invalid URL");
     cheerio_load := parse_html;
     anchor_hrefs := anchors;
     title_text := fun _ => "";
     h1_text := fun _ => "";
     og_title := fun _ => None;
     meta_title := fun _ => None;
     extractMainContent := fun doc => Returned (main_text doc);
     random_id := fun n => "id" +:+ Js.of_number (N.of_nat n);
     iso_time := fun n => "2025-01-01T00:00:0" +:+ Js.of_number (N.of_nat n) +:+ ".000Z" |}.

Definition start : World :=
  {| requests := []; entropy := 0; pages := ∅; delivered := [] |}.

(** [new URL(home)] *)
Definition base : URL.t :=
  {| URL.protocol := "https:"; URL.host := "example.com";
     URL.hostname := "example.com"; URL.href := home |}.

(** The frontier with which [discoverUrls] enters its loop. *)
Definition seeded (startUrl : string) : Frontier :=
  {| visitedUrls := ∅; urlsToVisit := [startUrl]; discoveredUrls := [] |}.

(** A callback that takes every event, as the one of the crawl route
    does, and one whose output channel is closed. *)
Definition sink : ProgressCallback := fun _ _ => Returned tt.

Definition closed : ProgressCallback :=
  fun _ _ => Threw (JsError "Controller is already closed").

(** A callback that refuses page events only. *)
Definition no_pages : ProgressCallback :=
  fun _ data =>
    match data with
    | EvPage _ => Threw (JsError "Converting circular structure to JSON")
    | _ => Returned tt
    end.

Definition is_page (data : Event) : bool :=
  match data with EvPage _ => true | _ => false end.

(** A callback that fails on the first page event it is given, and on no
    other event. *)
Definition once : ProgressCallback :=
  fun history data =>
    if is_page data && negb (existsb is_page history)
    then Threw (JsError "write EPIPE")
    else Returned tt.

End Demo.

(** ** Notions of the specification *)

(** [s] is a substring of [t]. *)
Definition substring_of (s t : string) : Prop :=
  exists pre post, t = pre +:+ s +:+ post.

Fixpoint all_space (s : string) : bool :=
  match s with
  | EmptyString => true
  | String c r => Js.is_space c && all_space r
  end.

Fixpoint no_space (s : string) : bool :=
  match s with
  | EmptyString => true
  | String c r => negb (Js.is_space c) && no_space r
  end.

(** [s] is empty or begins with a whitespace character. *)
Definition word_boundary (s : string) : Prop :=
  match s with
  | EmptyString => True
  | String c _ => Js.is_space c = true
  end.

(** [Tokens s ts]: [ts] are the whitespace-delimited non-empty tokens of
    [s], in order.  The string is a run of whitespace, or some whitespace,
    then a maximal non-empty word without whitespace, then the rest. *)
Inductive Tokens : string -> list string -> Prop :=
| Tokens_blank s :
    all_space s = true -> Tokens s []
| Tokens_word pre word rest ts :
    all_space pre = true ->
    word <> "" -> no_space word = true ->
    word_boundary rest ->
    Tokens rest ts ->
    Tokens (pre +:+ word +:+ rest) (word :: ts).

(** The events of the crawling phase for the URLs [urls] and the records
    [records] produced for them, the count starting at [done]. *)
Fixpoint page_events (totalPages done : nat) (urls : list string)
    (records : list Page.t) : list Event :=
  match urls, records with
  | url :: urls', page :: records' =>
      EvProgress {| total := totalPages; completed := done; current := url |}
      :: EvPage page
      :: page_events totalPages (S done) urls' records'
  | _, _ => []
  end.

(** The completed counts carried by the progress events, in order. *)
Definition progress_counts (events : list Event) : list nat :=
  omap (fun ev => match ev with
                  | EvProgress p => Some (completed p)
                  | _ => None
                  end) events.

(** [page] is the record of a failed crawl of [url] with message [msg]. *)
Definition error_record (page : Page.t) (url msg : string) : Prop :=
  Page.url page = url
  /\ Page.status page = Error
  /\ Page.content page = ""
  /\ Page.wordCount page = Some 0
  /\ Page.error page = Some msg
  /\ is_Some (Page.crawledAt page).

(** The callback returns normally on every event, whatever it received
    before. *)
Definition quiet (callback : ProgressCallback) : Prop :=
  forall history data, callback history data = Returned tt.

(** [generateId] never produces the same id twice. *)
Definition distinct_ids (P : Platform) : Prop :=
  forall m n, random_id P m = random_id P n -> m = n.

(** The id of the record was generated between [w] and [w']. *)
Definition fresh_record (P : Platform) (w w' : World) (page : Page.t) : Prop :=
  exists n, entropy w <= n < entropy w' /\ Page.id page = random_id P n.

(** What is known at [w'] of an event delivered since [w]: the record of
    a page event got its id since [w] and, when ids are never repeated, is
    in the store under it. *)
Definition page_event_ok (P : Platform) (w w' : World) (data : Event) : Prop :=
  match data with
  | EvPage page =>
      fresh_record P w w' page
      /\ (distinct_ids P -> pages w' !! Page.id page = Some page)
  | _ => True
  end.

(** A stretch of a run, from [w] to [w']: at most [budget] requests were
    sent, a stored record whose id was not generated in the stretch is
    still there, and the events delivered in it satisfy
    [page_event_ok]. *)
Definition stretch (P : Platform) (budget : nat) (w w' : World) : Prop :=
  entropy w <= entropy w'
  /\ length (requests w') <= length (requests w) + budget
  /\ (forall id kept,
        pages w !! id = Some kept ->
        (forall n, entropy w <= n < entropy w' -> random_id P n <> id) ->
        pages w' !! id = Some kept)
  /\ exists events,
       delivered w' = delivered w ++ events
       /\ Forall (page_event_ok P w w') events.

(** The fragments of the summary, joined: the content split at runs of
    sentence-ending punctuation, the fragments of more than 20 trimmed
    characters kept, the first three joined with a period and a space,
    and the result trimmed. *)
Definition joined_fragments (content : string) : string :=
  Js.trim
    (Js.join ". "
       (take 3 (List.filter (fun s => 20 <? strlen (Js.trim s))
                  (Js.split sentence_end content)))).

(** The loop invariant of discovery. *)
Definition frontier_ok (st : Frontier) : Prop :=
  NoDup (discoveredUrls st)
  /\ (forall x, x ∈ discoveredUrls st -> x ∈ visitedUrls st)
  /\ length (discoveredUrls st) <= 50.

(** [u] passed the test of the anchor callback, apart from the two
    comparisons with the visited set and the queue. *)
Definition passes_filter (P : Platform) (baseUrl : URL.t) (u : string) : Prop :=
  (exists urlObj, new_URL P u = Returned urlObj
                  /\ URL.hostname urlObj = URL.hostname baseUrl)
  /\ Js.includes u "#" = false
  /\ matches_non_html u = false
  /\ Js.includes u "mailto:" = false
  /\ Js.includes u "tel:" = false.

(** If the page of [url] is fetched and parsed at all, none of its anchors
    is accepted. *)
Definition yields_no_link (P : Platform) (baseUrl : URL.t) (url : string)
    (st : Frontier) (w : World) : Prop :=
  forall response html doc,
    (fetchWithRetry P url 2 w).2 = Returned response ->
    ok response = true ->
    text response = Returned html ->
    cheerio_load P html = Returned doc ->
    forall href, href ∈ anchor_hrefs P doc ->
                 accepted_link P baseUrl url st href = None.

(** Every character of [s] satisfies [p]. *)
Fixpoint all_chars (p : ascii -> bool) (s : string) : bool :=
  match s with
  | EmptyString => true
  | String c r => p c && all_chars p r
  end.

(** Not a whitespace character other than the plain space. *)
Definition plain_char (c : ascii) : bool :=
  negb (Js.is_space c) || Ascii.eqb c " ".

(** A lowercase letter, a digit or an underscore. *)
Definition name_char (c : ascii) : bool :=
  let n := nat_of_ascii c in
  ((48 <=? n) && (n <=? 57)) || ((97 <=? n) && (n <=? 122)) || (n =? 95).

(** The entry of the ordered map for a record stored under its own id. *)
Definition own_entry (page : Page.t) : string * Page.t := (Page.id page, page).

(** The ordered map after the records of the page events were stored in an
    empty store, in the order of the events. *)
Definition stored_by (events : list Event) : PageMap.t :=
  fold_left (fun m data =>
               match data with
               | EvPage page => PageMap.storePage page m
               | _ => m
               end) events [].

(** * Properties *)

(** ** Strings *)

Section StringFacts.

Lemma app_cons (c : ascii) (a b : string) :
  String c a +:+ b = String c (a +:+ b).
Proof. reflexivity. Qed.

Lemma app_empty_l (b : string) : "" +:+ b = b.
Proof. reflexivity. Qed.

Lemma strlen_app (a b : string) : strlen (a +:+ b) = strlen a + strlen b.
Proof.
  induction a as [|c a IH]; [reflexivity|].
  rewrite app_cons. simpl. now rewrite IH.
Qed.

Lemma app_assoc_str (a b c : string) : (a +:+ b) +:+ c = a +:+ (b +:+ c).
Proof.
  induction a as [|x a IH]; [reflexivity|].
  rewrite !app_cons. now rewrite IH.
Qed.

Lemma strlen_prefix (n : nat) (s : string) :
  n <= strlen s -> strlen (String.substring 0 n s) = n.
Proof.
  revert s; induction n as [|n IH]; intros [|c s]; simpl; intros H;
    try reflexivity; try lia.
  rewrite IH; [reflexivity | lia].
Qed.

Lemma endsWith_app (a b : string) : Js.endsWith (a +:+ b) b = true.
Proof.
  induction a as [|c a IH].
  - rewrite app_empty_l.
    destruct b; simpl; rewrite ?Ascii.eqb_refl, ?String.eqb_refl; reflexivity.
  - rewrite app_cons. simpl. rewrite IH. apply orb_true_r.
Qed.

Lemma startsWith_app (s t : string) : Js.startsWith (s +:+ t) s = true.
Proof.
  induction s as [|c s IH]; [reflexivity|].
  rewrite app_cons. simpl. now rewrite Ascii.eqb_refl.
Qed.

Lemma includes_app (pre s post : string) :
  Js.includes (pre +:+ s +:+ post) s = true.
Proof.
  induction pre as [|c pre IH].
  - rewrite app_empty_l. destruct (s +:+ post) eqn:E; simpl;
      rewrite <- E, startsWith_app; reflexivity.
  - rewrite app_cons. simpl. rewrite IH. apply orb_true_r.
Qed.

Lemma includes_substring_of (s t : string) :
  substring_of s t -> Js.includes t s = true.
Proof. intros (pre & post & ->). apply includes_app. Qed.

Lemma startsWith_inv (t s : string) :
  Js.startsWith t s = true -> exists post, t = s +:+ post.
Proof.
  revert t; induction s as [|c s IH]; intros t H.
  - exists t. reflexivity.
  - destruct t as [|d t]; simpl in H; [discriminate|].
    destruct (Ascii.eqb c d) eqn:E; [|discriminate].
    apply Ascii.eqb_eq in E as ->.
    destruct (IH _ H) as [post ->]. exists post. reflexivity.
Qed.

Lemma includes_inv (t s : string) :
  Js.includes t s = true -> substring_of s t.
Proof.
  induction t as [|c t IH]; simpl; intros H.
  - rewrite orb_false_r in H. apply startsWith_inv in H as [post ->].
    exists "", post. reflexivity.
  - apply orb_prop in H as [H|H].
    + apply startsWith_inv in H as [post ->]. exists "", post. reflexivity.
    + destruct (IH H) as (pre & post & ->). exists (String c pre), post.
      reflexivity.
Qed.

End StringFacts.

(** The primitives on the inputs the ECMAScript specification singles
    out: no match, a run at either end, consecutive separators. *)
Example split_empty : Js.split Js.is_space "" = [""].
Proof. reflexivity. Qed.

Example split_runs_at_both_ends :
  Js.split Js.is_space "  two   words " = [""; "two"; "words"; ""].
Proof. reflexivity. Qed.

Example split_sentences :
  Js.split sentence_end "One. Two?! Three" = ["One"; " Two"; " Three"].
Proof. reflexivity. Qed.

Example trim_both_sides : Js.trim "  a b   " = "a b".
Proof. reflexivity. Qed.

Example countWords_spaces : countWords "  Hello   world. This works.  " = 4.
Proof. reflexivity. Qed.

(** ** ContentExtractor *)

Section Summary.

Lemma filter_none {A} (f : A -> bool) (l : list A) :
  Forall (fun x => f x = false) l -> List.filter f l = [].
Proof.
  induction 1 as [|x l Hx _ IH]; simpl; [reflexivity|]. now rewrite Hx.
Qed.

(** The two shapes of a summary. *)
Lemma generateSummary_shape (content : string) :
  (exists body, strlen body <= 300 /\ generateSummary content = body +:+ ".")
  \/ (exists body, strlen body = 300 /\ generateSummary content = body +:+ "...").
Proof.
  unfold generateSummary.
  set (summary := Js.trim _).
  destruct (300 <? strlen summary) eqn:E.
  - right. apply Nat.ltb_lt in E.
    exists (Js.substring summary 0 300). split; [|reflexivity].
    unfold Js.substring. simpl. apply strlen_prefix. lia.
  - left. apply Nat.ltb_ge in E. exists summary. split; [exact E | reflexivity].
Qed.

End Summary.

(** The example of the specification: the first three fragments of more
    than 20 characters are joined; the third qualifying fragment does not
    exist here, so two are. *)
Example summary_ex :
  generateSummary "Short. This is sentence two which is long enough. Another long enough sentence here. A fourth one."
  = "This is sentence two which is long enough.  Another long enough sentence here.".
Proof. vm_compute. reflexivity. Qed.

(** C8, as the specification states it, fails: a content of 301 letters
    without punctuation is one fragment of more than 300 characters, and
    its summary is the first 300 letters followed by three periods, 303
    characters: more than 300, and more than 300 and a period. *)
Lemma generateSummary_exceeds_300 :
  ~ (strlen (generateSummary (string_of_list_ascii (repeat "a"%char 301))) <= 300
     /\ Js.endsWith (generateSummary (string_of_list_ascii (repeat "a"%char 301))) "."
        = true)
  /\ strlen (generateSummary (string_of_list_ascii (repeat "a"%char 301))) = 303
  /\ generateSummary (string_of_list_ascii (repeat "a"%char 301))
     = string_of_list_ascii (repeat "a"%char 300) +:+ "...".
Proof.
  assert (H : generateSummary (string_of_list_ascii (repeat "a"%char 301))
              = string_of_list_ascii (repeat "a"%char 300) +:+ "...")
    by (vm_compute; reflexivity).
  assert (Hlen : strlen (generateSummary (string_of_list_ascii (repeat "a"%char 301)))
                 = 303) by (rewrite H; vm_compute; reflexivity).
  split; [|split; [exact Hlen | exact H]].
  intros [Hle _]. rewrite Hlen in Hle. lia.
Qed.

Lemma substring_prefix (n : nat) (s : string) :
  n <= strlen s -> exists rest, s = String.substring 0 n s +:+ rest.
Proof.
  revert s; induction n as [|n IH]; intros s Hlen.
  - exists s. destruct s; reflexivity.
  - destruct s as [|c s]; simpl in Hlen; [lia|].
    destruct (IH s ltac:(lia)) as [rest Hrest].
    exists rest. simpl. rewrite app_cons. congruence.
Qed.

(** C8 (amended): for every content string the summary ends with a period
    and has at most 303 characters.  When the joined fragments have at
    most 300 characters it is the joined fragments followed by one period;
    when they exceed 300 characters it is their first 300 characters
    followed by three periods. *)
Theorem generateSummary_length_and_period (content : string) :
  strlen (generateSummary content) <= 303
  /\ Js.endsWith (generateSummary content) "." = true
  /\ ((strlen (joined_fragments content) <= 300
       /\ generateSummary content = joined_fragments content +:+ ".")
      \/ (300 < strlen (joined_fragments content)
          /\ exists first rest,
               joined_fragments content = first +:+ rest
               /\ strlen first = 300
               /\ generateSummary content = first +:+ "...")).
Proof.
  assert (Hcases :
            (strlen (joined_fragments content) <= 300
             /\ generateSummary content = joined_fragments content +:+ ".")
            \/ (300 < strlen (joined_fragments content)
                /\ exists first rest,
                     joined_fragments content = first +:+ rest
                     /\ strlen first = 300
                     /\ generateSummary content = first +:+ "...")).
  { change (generateSummary content)
      with (if 300 <? strlen (joined_fragments content)
            then Js.substring (joined_fragments content) 0 300 +:+ "..."
            else joined_fragments content +:+ ".").
    destruct (300 <? strlen (joined_fragments content)) eqn:E.
    - right. apply Nat.ltb_lt in E. split; [exact E|].
      destruct (substring_prefix 300 (joined_fragments content) ltac:(lia))
        as [rest Hrest].
      exists (String.substring 0 300 (joined_fragments content)), rest.
      split; [exact Hrest|]. split; [apply strlen_prefix; lia | reflexivity].
    - left. apply Nat.ltb_ge in E. split; [exact E | reflexivity]. }
  split; [|split; [|exact Hcases]].
  - destruct Hcases as [(Hlen & ->)|(_ & first & rest & _ & Hlen & ->)];
      rewrite strlen_app; simpl; lia.
  - destruct Hcases as [(_ & ->)|(_ & first & rest & _ & _ & ->)].
    + apply endsWith_app.
    + replace (first +:+ "...") with ((first +:+ "..") +:+ ".")
        by apply app_assoc_str.
      apply endsWith_app.
Qed.

(** C10: the summary is never the empty string, and for a content none of
    whose fragments between sentence-ending punctuation marks has more than
    20 characters after trimming (the empty content is one), it is exactly
    the one-character string of a period. *)
Theorem generateSummary_without_long_fragment (content : string) :
  generateSummary content <> ""
  /\ (Forall (fun s => strlen (Js.trim s) <= 20) (Js.split sentence_end content) ->
      generateSummary content = ".").
Proof.
  split.
  - intros Hempty. apply (f_equal strlen) in Hempty.
    destruct (generateSummary_shape content)
      as [(body & _ & Hb)|(body & _ & Hb)];
      rewrite Hb, strlen_app in Hempty; simpl in Hempty; lia.
  - intros Hshort. unfold generateSummary.
    rewrite filter_none; [reflexivity|].
    eapply Forall_impl; [exact Hshort|]. intros s Hs. simpl in Hs.
    apply Nat.ltb_ge. exact Hs.
Qed.

Lemma generateSummary_without_long_fragment_witness :
  Forall (fun s => strlen (Js.trim s) <= 20) (Js.split sentence_end "Hi there! Ok. ")
  /\ generateSummary "Hi there! Ok. " = ".".
Proof.
  assert (H : Forall (fun s => strlen (Js.trim s) <= 20)
                (Js.split sentence_end "Hi there! Ok. ")).
  { vm_compute. repeat constructor. }
  split; [exact H|].
  exact (proj2 (generateSummary_without_long_fragment "Hi there! Ok. ") H).
Defined.

Lemma generateSummary_empty_content : generateSummary "" = ".".
Proof. reflexivity. Qed.

Section WordCount.

Local Abbreviation nonempty := (fun word : string => 0 <? strlen word).
Local Abbreviation words s b := (List.filter nonempty (Js.split_from Js.is_space s b)).

Lemma app_empty_r (a : string) : a +:+ "" = a.
Proof. induction a as [|c a IH]; [reflexivity|]. now rewrite app_cons, IH. Qed.

Lemma split_from_cons (sep : ascii -> bool) (s : string) (b : bool) :
  exists field fields, Js.split_from sep s b = field :: fields.
Proof.
  revert b; induction s as [|c s IH]; intros b; simpl; [eauto|].
  destruct (sep c).
  - destruct b; [apply IH | eauto].
  - destruct (IH false) as (f & fs & ->). eauto.
Qed.

(** Whether the scan starts inside a run only decides about an empty
    first field. *)
Lemma words_any_start (s : string) : words s true = words s false.
Proof. destruct s as [|c s]; simpl; [reflexivity|]. now destruct (Js.is_space c). Qed.

Lemma words_space (c : ascii) (s : string) (b : bool) :
  Js.is_space c = true -> words (String c s) b = words s false.
Proof.
  intros Hc. simpl. rewrite Hc. destruct b; simpl; apply words_any_start.
Qed.

Lemma words_blank (s : string) (b : bool) : all_space s = true -> words s b = [].
Proof.
  revert b; induction s as [|c s IH]; intros b H; [reflexivity|].
  simpl in H. apply andb_prop in H as [Hc Hs].
  rewrite words_space by exact Hc. now apply IH.
Qed.

Lemma words_skip (pre s : string) :
  all_space pre = true -> words (pre +:+ s) false = words s false.
Proof.
  induction pre as [|c pre IH]; intros H; [reflexivity|].
  simpl in H. apply andb_prop in H as [Hc Hs].
  rewrite app_cons, words_space by exact Hc. now apply IH.
Qed.

Lemma split_from_boundary (rest : string) :
  word_boundary rest ->
  exists fields, Js.split_from Js.is_space rest false = "" :: fields.
Proof.
  destruct rest as [|c r]; simpl; intros H; [eauto|]. rewrite H. eauto.
Qed.

Lemma split_from_word (word rest field : string) (fields : list string) :
  no_space word = true ->
  Js.split_from Js.is_space rest false = field :: fields ->
  Js.split_from Js.is_space (word +:+ rest) false = (word +:+ field) :: fields.
Proof.
  intros Hw Hrest. induction word as [|c word IH]; [exact Hrest|].
  simpl in Hw. apply andb_prop in Hw as [Hc Hw].
  apply negb_true_iff in Hc.
  rewrite !app_cons. simpl. rewrite Hc, (IH Hw). reflexivity.
Qed.

Lemma strlen_pos (s : string) : s <> "" -> (0 <? strlen s) = true.
Proof. destruct s; [congruence | reflexivity]. Qed.

(** The tokens of a string are what the filtered split returns. *)
Lemma Tokens_words (s : string) (ts : list string) :
  Tokens s ts -> words s false = ts.
Proof.
  induction 1 as [s Hs | pre word rest ts Hpre Hne Hword Hb _ IH].
  - now apply words_blank.
  - rewrite words_skip by exact Hpre.
    destruct (split_from_boundary rest Hb) as [fields Hrest].
    rewrite (split_from_word word rest "" fields Hword Hrest), app_empty_r.
    simpl. rewrite (strlen_pos word Hne). f_equal.
    rewrite <- IH, Hrest. reflexivity.
Qed.

Lemma Tokens_cons_space (c : ascii) (s : string) (ts : list string) :
  Js.is_space c = true -> Tokens s ts -> Tokens (String c s) ts.
Proof.
  intros Hc [s' Hs | pre word rest ts' Hpre Hne Hword Hb Hrest].
  - apply Tokens_blank. simpl. now rewrite Hc, Hs.
  - rewrite <- app_cons. apply Tokens_word; try assumption.
    simpl. now rewrite Hc, Hpre.
Qed.

(** A word can be extended to the left by a non-blank character. *)
Lemma Tokens_cons_letter (c d : ascii) (r : string) (ts : list string) :
  Js.is_space c = false -> Js.is_space d = false ->
  Tokens (String d r) ts ->
  exists word ts', ts = word :: ts' /\ Tokens (String c (String d r)) (String c word :: ts').
Proof.
  intros Hc Hd H. remember (String d r) as s eqn:Es.
  destruct H as [s Hs | pre word rest ts' Hpre Hne Hword Hb Hrest].
  - subst s. simpl in Hs. rewrite Hd in Hs. discriminate.
  - destruct pre as [|p pre].
    + exists word, ts'. split; [reflexivity|].
      rewrite app_empty_l.
      change (String c (word +:+ rest)) with ("" +:+ String c word +:+ rest).
      apply Tokens_word;
        [reflexivity | discriminate | simpl; now rewrite Hc, Hword
        | assumption | assumption].
    + rewrite app_cons in Es. injection Es as -> _.
      simpl in Hpre. rewrite Hd in Hpre. discriminate.
Qed.

(** Every string has tokens: those the filtered split returns. *)
Lemma words_Tokens (s : string) : Tokens s (words s false).
Proof.
  induction s as [|c r IH]; [now apply Tokens_blank|].
  destruct (Js.is_space c) eqn:Hc.
  - rewrite words_space by exact Hc. now apply Tokens_cons_space.
  - destruct r as [|d r'].
    + simpl. rewrite Hc. simpl.
      change (String c "") with ("" +:+ String c "" +:+ "").
      apply Tokens_word;
        [reflexivity | discriminate | simpl; now rewrite Hc | exact I
        | now apply Tokens_blank].
    + destruct (Js.is_space d) eqn:Hd.
      * assert (Hr : words (String c (String d r')) false
                     = String c "" :: words (String d r') false).
        { simpl. rewrite Hc, Hd. reflexivity. }
        rewrite Hr.
        change (String c (String d r'))
          with ("" +:+ String c "" +:+ String d r').
        apply Tokens_word;
          [reflexivity | discriminate | simpl; now rewrite Hc
          | exact Hd | exact IH].
      * destruct (Tokens_cons_letter c d r' _ Hc Hd IH)
          as (word & ts' & Hts & Htok).
        assert (Hr : words (String c (String d r')) false
                     = String c word :: ts').
        { revert Hts. simpl. rewrite Hc, Hd.
          destruct (split_from_cons Js.is_space r' false) as (f & fs & ->).
          simpl. intros [= <- <-]. reflexivity. }
        rewrite Hr. exact Htok.
Qed.

(** [countWords] counts the whitespace-delimited non-empty tokens. *)
Lemma countWords_Tokens (content : string) :
  exists tokens,
    Tokens content tokens
    /\ (forall ts, Tokens content ts -> ts = tokens)
    /\ countWords content = length tokens.
Proof.
  exists (words content false). split; [apply words_Tokens|].
  split; [|reflexivity].
  intros ts Hts. symmetry. now apply Tokens_words.
Qed.

End WordCount.

(** ** Fetcher *)

Section FetcherFacts.

Context (P : Platform).

(** Fetching only adds to the request log. *)
Lemma fetch_attempts_frame (url : string) (maxRetries left attempt : nat) (w : World) :
  entropy (fetch_attempts P url maxRetries attempt left w).1 = entropy w
  /\ pages (fetch_attempts P url maxRetries attempt left w).1 = pages w
  /\ delivered (fetch_attempts P url maxRetries attempt left w).1 = delivered w.
Proof.
  revert attempt w; induction left as [|left IH]; intros attempt w; simpl.
  - auto.
  - unfold try_catch, do_fetch.
    destruct (fetch P (requests w) url) as [response|e]; simpl; [auto|].
    destruct (attempt =? maxRetries).
    + destruct (_ || _); [|simpl; auto].
      unfold bind, lift, throw. destruct (new_URL P url); simpl; auto.
    + destruct (IH (S attempt)
                  {| requests := requests w ++ [url]; entropy := entropy w;
                     pages := pages w; delivered := delivered w |})
        as (He & Hp & Hd).
      auto.
Qed.

Lemma fetchWithRetry_frame (url : string) (maxRetries : nat) (w : World) :
  entropy (fetchWithRetry P url maxRetries w).1 = entropy w
  /\ pages (fetchWithRetry P url maxRetries w).1 = pages w
  /\ delivered (fetchWithRetry P url maxRetries w).1 = delivered w.
Proof. apply fetch_attempts_frame. Qed.

End FetcherFacts.

(** ** UrlDiscoverer *)

Section DiscoveryFacts.

Context (P : Platform) (baseUrl : URL.t).

Lemma discover_loop_eq (s : World * Frontier) :
  discover_loop P baseUrl s =
  if loop_guard s.2
  then discover_loop P baseUrl (discover_step P baseUrl s.2 s.1)
  else s.
Proof.
  rewrite discover_loop_equation_1. unfold discover_loop_unfold_clause_1.
  destruct (loop_guard s.2) eqn:E; reflexivity.
Qed.

(** The four ways a scan ends without new links, and the one with. *)
Lemma scan_page_cases (currentUrl : string) (st : Frontier) (w : World) :
  let r := fetchWithRetry P currentUrl 2 w in
  match r.2 with
  | Threw e => scan_page P baseUrl currentUrl st w = (r.1, Threw e)
  | Returned response =>
      if ok response then
        match text response with
        | Threw e => scan_page P baseUrl currentUrl st w = (r.1, Threw e)
        | Returned html =>
            match cheerio_load P html with
            | Threw e => scan_page P baseUrl currentUrl st w = (r.1, Threw e)
            | Returned doc =>
                scan_page P baseUrl currentUrl st w =
                (r.1,
                 Returned
                   {| visitedUrls := visitedUrls st;
                      urlsToVisit :=
                        urlsToVisit st
                        ++ take 10 (omap (accepted_link P baseUrl currentUrl st)
                                      (anchor_hrefs P doc));
                      discoveredUrls := discoveredUrls st |})
            end
        end
      else scan_page P baseUrl currentUrl st w = (r.1, Returned st)
  end.
Proof.
  unfold scan_page, bind, lift, ret.
  destruct (fetchWithRetry P currentUrl 2 w) as [w1 [response|e]]; simpl;
    [|reflexivity].
  destruct (ok response); simpl; [|reflexivity].
  destruct (text response) as [html|e]; simpl; [|reflexivity].
  destruct (cheerio_load P html) as [doc|e]; reflexivity.
Qed.

(** A scan never touches the visited set or the discovered sequence. *)
Lemma scan_page_keeps (currentUrl : string) (st st' : Frontier) (w w' : World) :
  scan_page P baseUrl currentUrl st w = (w', Returned st') ->
  visitedUrls st' = visitedUrls st /\ discoveredUrls st' = discoveredUrls st.
Proof.
  pose proof (scan_page_cases currentUrl st w) as H. simpl in H.
  destruct (fetchWithRetry P currentUrl 2 w) as [w1 [response|e]]; simpl in H;
    [|rewrite H; discriminate].
  destruct (ok response);
    [|rewrite H; intros [= _ <-]; auto].
  destruct (text response) as [html|e]; [|rewrite H; discriminate].
  destruct (cheerio_load P html) as [doc|e]; [|rewrite H; discriminate].
  rewrite H. intros [= _ <-]. auto.
Qed.

(** A URL already visited is dropped from the queue, nothing else. *)
Lemma discover_step_skip (st : Frontier) (currentUrl : string)
    (rest : list string) (w : World) :
  urlsToVisit st = currentUrl :: rest ->
  currentUrl ∈ visitedUrls st ->
  discover_step P baseUrl st w =
  (w, {| visitedUrls := visitedUrls st; urlsToVisit := rest;
         discoveredUrls := discoveredUrls st |}).
Proof.
  intros Hq Hv. unfold discover_step. rewrite Hq.
  now rewrite bool_decide_eq_true_2.
Qed.

(** A new URL is marked, then scanned; a failed scan leaves the marked
    state. *)
Lemma discover_step_new (st : Frontier) (currentUrl : string)
    (rest : list string) (w : World) :
  urlsToVisit st = currentUrl :: rest ->
  currentUrl ∉ visitedUrls st ->
  discover_step P baseUrl st w =
  match scan_page P baseUrl currentUrl (mark_discovered currentUrl rest st) w with
  | (w', Returned st2) => (w', st2)
  | (w', Threw _) => (w', mark_discovered currentUrl rest st)
  end.
Proof.
  intros Hq Hv. unfold discover_step. rewrite Hq.
  now rewrite bool_decide_eq_false_2.
Qed.

Lemma discover_step_marks (st : Frontier) (currentUrl : string)
    (rest : list string) (w : World) :
  urlsToVisit st = currentUrl :: rest ->
  currentUrl ∉ visitedUrls st ->
  visitedUrls (discover_step P baseUrl st w).2 = {[currentUrl]} ∪ visitedUrls st
  /\ discoveredUrls (discover_step P baseUrl st w).2
     = discoveredUrls st ++ [currentUrl].
Proof.
  intros Hq Hv. rewrite (discover_step_new st currentUrl rest w Hq Hv).
  destruct (scan_page P baseUrl currentUrl
              (mark_discovered currentUrl rest st) w) as [w' [st2|e]] eqn:E.
  - apply scan_page_keeps in E as [Ev Ed]. simpl. rewrite Ev, Ed. auto.
  - auto.
Qed.

Lemma discover_step_prefix (st : Frontier) (w : World) :
  discoveredUrls st `prefix_of` discoveredUrls (discover_step P baseUrl st w).2.
Proof.
  destruct (urlsToVisit st) as [|currentUrl rest] eqn:Hq.
  - unfold discover_step. rewrite Hq. reflexivity.
  - destruct (decide (currentUrl ∈ visitedUrls st)) as [Hv|Hv].
    + rewrite (discover_step_skip st currentUrl rest w Hq Hv). reflexivity.
    + destruct (discover_step_marks st currentUrl rest w Hq Hv) as [_ ->].
      now apply prefix_app_r.
Qed.

Lemma discover_step_ok (st : Frontier) (w : World) :
  frontier_ok st -> loop_guard st = true ->
  frontier_ok (discover_step P baseUrl st w).2.
Proof.
  intros (Hnd & Hsub & Hlen) Hguard.
  apply andb_prop in Hguard as [_ Hroom]. apply Nat.ltb_lt in Hroom.
  destruct (urlsToVisit st) as [|currentUrl rest] eqn:Hq.
  - unfold discover_step. rewrite Hq. repeat split; assumption.
  - destruct (decide (currentUrl ∈ visitedUrls st)) as [Hv|Hv].
    + rewrite (discover_step_skip st currentUrl rest w Hq Hv).
      repeat split; assumption.
    + destruct (discover_step_marks st currentUrl rest w Hq Hv) as [Ev Ed].
      unfold frontier_ok. rewrite Ev, Ed. repeat split.
      * apply NoDup_app. repeat split; [exact Hnd| |apply NoDup_singleton].
        intros x Hx Hx'. apply list_elem_of_singleton in Hx' as ->.
        apply Hv, Hsub, Hx.
      * intros x Hx. apply elem_of_app in Hx as [Hx|Hx].
        -- apply elem_of_union_r, Hsub, Hx.
        -- apply list_elem_of_singleton in Hx as ->.
           apply elem_of_union_l, elem_of_singleton. reflexivity.
      * rewrite length_app. simpl. lia.
Qed.

(** What the test in the anchor callback does guarantee: an accepted link
    is on the seed's host and was neither visited nor queued when the scan
    of the page began. *)
Lemma accepted_link_fresh (currentUrl : string) (st : Frontier)
    (href link : string) :
  accepted_link P baseUrl currentUrl st href = Some link ->
  (link ∉ visitedUrls st) /\ (link ∉ urlsToVisit st)
  /\ Js.includes link "#" = false.
Proof.
  unfold accepted_link. destruct (String.eqb href ""); [discriminate|].
  destruct (absolute_of P baseUrl currentUrl href) as [absoluteUrl|e];
    [|discriminate].
  destruct (new_URL P absoluteUrl) as [urlObj|e]; [|discriminate].
  destruct (_ && _) eqn:Htest; [|discriminate].
  intros [= <-].
  repeat (apply andb_prop in Htest as [Htest ?]).
  repeat match goal with
         | H : negb _ = true |- _ => apply negb_true_iff in H
         | H : bool_decide _ = false |- _ => apply bool_decide_eq_false_1 in H
         end.
  auto.
Qed.

(** The loop ends with its guard false and keeps every invariant of its
    body. *)
Lemma discover_loop_invariant (I : Frontier -> Prop) :
  (forall st w, I st -> loop_guard st = true ->
                I (discover_step P baseUrl st w).2) ->
  forall s, I s.2 ->
    I (discover_loop P baseUrl s).2
    /\ loop_guard (discover_loop P baseUrl s).2 = false.
Proof.
  intros Hstep s. funelim (discover_loop P baseUrl s); intros Hs.
  - match goal with IH : forall I : Frontier -> Prop, _ |- _ =>
      apply IH; [exact Hstep | now apply Hstep] end.
  - auto.
Qed.

Lemma discover_loop_prefix (s : World * Frontier) :
  discoveredUrls s.2 `prefix_of` discoveredUrls (discover_loop P baseUrl s).2.
Proof.
  funelim (discover_loop P baseUrl s).
  - etransitivity; [apply discover_step_prefix|].
    match goal with IH : _ `prefix_of` _ |- _ => exact IH end.
  - reflexivity.
Qed.

End DiscoveryFacts.

Section FetcherExhausted.

Context (P : Platform).

(** When every attempt fails, the last handler decides: a URL that
    contains one of the three names gets the blocked-site message built
    from its hostname, any other URL the error of the last attempt. *)
Lemma fetch_attempts_exhausted (url : string) (maxRetries left attempt : nat)
    (w : World) :
  attempt + left = S maxRetries -> 0 < left ->
  (forall k, k < left ->
     exists e, fetch P (requests w ++ replicate k url) url = Threw e) ->
  exists last,
    fetch P (requests w ++ replicate (left - 1) url) url = Threw last
    /\ fetch_attempts P url maxRetries attempt left w =
       ({| requests := requests w ++ replicate left url;
           entropy := entropy w; pages := pages w; delivered := delivered w |},
        if Js.includes url "google.com" || Js.includes url "facebook.com"
           || Js.includes url "twitter.com"
        then match new_URL P url with
             | Returned u => Threw (JsError (blocked_site_message (URL.hostname u)))
             | Threw e => Threw e
             end
        else Threw last).
Proof.
  revert attempt w; induction left as [|left IH]; intros attempt w Hsum Hpos Hfail;
    [lia|].
  destruct (Hfail 0 ltac:(lia)) as [e0 He0].
  simpl in He0. rewrite app_nil_r in He0.
  simpl. unfold try_catch, do_fetch. rewrite He0.
  destruct left as [|left'].
  - replace (attempt =? maxRetries) with true
      by (symmetry; apply Nat.eqb_eq; lia).
    exists e0. simpl. rewrite app_nil_r. split; [exact He0|].
    destruct (_ || _); [|reflexivity].
    unfold bind, lift, throw. destruct (new_URL P url); reflexivity.
  - replace (attempt =? maxRetries) with false
      by (symmetry; apply Nat.eqb_neq; lia).
    destruct (IH (S attempt)
                {| requests := requests w ++ [url]; entropy := entropy w;
                   pages := pages w; delivered := delivered w |})
      as (last & Hlast & Hrun); [lia | lia | |].
    + intros k Hk. destruct (Hfail (S k) ltac:(lia)) as [e He].
      exists e. simpl. rewrite <- app_assoc. exact He.
    + exists last. cbn [requests entropy pages delivered] in Hlast, Hrun.
      rewrite <- app_assoc in Hlast, Hrun. split.
      * replace (S left' - 1) with left' in Hlast by lia.
        replace (S (S left') - 1) with (S left') by lia. exact Hlast.
      * exact Hrun.
Qed.

End FetcherExhausted.

(** C5 holds for a URL that contains none of the three names, and fails
    for one that contains a name outside its hostname: [fetchWithRetry]
    tests the whole URL, where [discoverUrls] tests the hostname.  Here
    both attempts for a page of example.com fail with "fetch failed", yet
    the error raised says that example.com blocks crawling. *)
Theorem fetchWithRetry_blames_unrelated_host :
  new_URL Demo.platform "https://example.com/google.com"
  = Returned {| URL.protocol := "https:"; URL.host := "example.com";
                URL.hostname := "example.com";
                URL.href := "https://example.com/google.com" |}
  /\ fetch Demo.platform ["https://example.com/google.com"]
       "https://example.com/google.com"
     = Threw (JsError "fetch failed")
  /\ fetchWithRetry Demo.platform "https://example.com/google.com" 2 Demo.start
     = ({| requests := ["https://example.com/google.com";
                        "https://example.com/google.com"];
           entropy := 0; pages := ∅; delivered := [] |},
        Threw (JsError "This website (example.com) blocks automated crawling. Try a different website like example.com, wikipedia.org, or your own website.")).
Proof. repeat split. Qed.

(** C6 fails on a page that carries the same link twice: both copies pass
    the test against the visited set and the queue, which are only updated
    after the scan, and both are pushed. *)
Theorem same_link_twice_is_queued_twice :
  new_URL Demo.platform Demo.home = Returned Demo.base
  /\ cheerio_load Demo.platform Demo.home_html
     = Returned {| Demo.anchors := ["/a"; "/a"];
                   Demo.main_text := "Hello world. This works." |}
  /\ urlsToVisit (discover_step Demo.platform Demo.base
                    (Demo.seeded Demo.home) Demo.start).2
     = ["https://example.com/a"; "https://example.com/a"]
  /\ ~ NoDup (urlsToVisit (discover_step Demo.platform Demo.base
                             (Demo.seeded Demo.home) Demo.start).2).
Proof.
  assert (Hq : urlsToVisit (discover_step Demo.platform Demo.base
                              (Demo.seeded Demo.home) Demo.start).2
               = ["https://example.com/a"; "https://example.com/a"])
    by (vm_compute; reflexivity).
  split; [reflexivity|]. split; [reflexivity|]. split; [exact Hq|].
  rewrite Hq. intros Hnd. apply NoDup_cons in Hnd as [Hin _].
  apply Hin. apply list_elem_of_here.
Qed.

(** The first iteration discovers the seed, and the sequence only grows. *)
Lemma discoverUrls_seed_first
    (P : Platform) (startUrl : string) (w w' : World) (urls : list string) :
  discoverUrls P startUrl w = (w', Returned urls) ->
  head urls = Some startUrl.
Proof.
  unfold discoverUrls, bind, lift, throw.
  destruct (new_URL P startUrl) as [baseUrl|e]; [|discriminate].
  destruct (existsb _ _); [discriminate|].
  intros [= _ <-].
  set (st0 := {| visitedUrls := ∅; urlsToVisit := [startUrl];
                 discoveredUrls := [] |}).
  rewrite discover_loop_eq. change (loop_guard (w, st0).2) with true.
  cbv iota.
  pose proof (discover_loop_prefix P baseUrl (discover_step P baseUrl st0 w))
    as Hpre.
  destruct (discover_step_marks P baseUrl st0 startUrl [] w eq_refl
              (not_elem_of_empty _)) as [_ Hd].
  simpl in Hd. change (w, st0).2 with st0. change (w, st0).1 with w.
  rewrite Hd in Hpre. destruct Hpre as [k ->]. reflexivity.
Qed.

(** C1: whenever [discoverUrls] returns a list, the list has at most 50
    URLs, no URL twice, and the seed URL as its first element. *)
Theorem discoverUrls_bounded_distinct_seed_first
    (P : Platform) (startUrl : string) (w w' : World) (urls : list string) :
  discoverUrls P startUrl w = (w', Returned urls) ->
  length urls <= 50 /\ NoDup urls /\ head urls = Some startUrl.
Proof.
  intros Hrun.
  pose proof (discoverUrls_seed_first P startUrl w w' urls Hrun) as Hhead.
  revert Hrun. unfold discoverUrls, bind, lift, throw.
  destruct (new_URL P startUrl) as [baseUrl|e]; [|discriminate].
  destruct (existsb _ _); [discriminate|].
  intros [= _ <-].
  set (st0 := {| visitedUrls := ∅; urlsToVisit := [startUrl];
                 discoveredUrls := [] |}) in *.
  destruct (discover_loop_invariant P baseUrl frontier_ok
              (discover_step_ok P baseUrl) (w, st0)) as [(Hnd & _ & Hlen) _].
  { repeat split; simpl; [apply NoDup_nil_2 | intros x Hx | lia].
    now apply elem_of_nil in Hx. }
  split; [exact Hlen|]. split; [exact Hnd | exact Hhead].
Qed.

Lemma discoverUrls_bounded_distinct_seed_first_witness :
  discoverUrls Demo.platform Demo.home Demo.start
  = ({| requests := [Demo.home; "https://example.com/a"; "https://example.com/a"];
        entropy := 0; pages := ∅; delivered := [] |},
     Returned [Demo.home; "https://example.com/a"])
  /\ length [Demo.home; "https://example.com/a"] <= 50
  /\ NoDup [Demo.home; "https://example.com/a"]
  /\ head [Demo.home; "https://example.com/a"] = Some Demo.home.
Proof.
  assert (H : discoverUrls Demo.platform Demo.home Demo.start
              = ({| requests := [Demo.home; "https://example.com/a";
                                 "https://example.com/a"];
                    entropy := 0; pages := ∅; delivered := [] |},
                 Returned [Demo.home; "https://example.com/a"]))
    by (vm_compute; reflexivity).
  split; [exact H|].
  exact (discoverUrls_bounded_distinct_seed_first Demo.platform Demo.home
           Demo.start _ _ H).
Defined.

(** C2: for a seed whose hostname has one of the five deny-listed domains
    as a substring, [discoverUrls] throws the error whose message names
    the hostname and suggests other sites, and the world is as before the
    call: nothing was fetched. *)
Theorem discoverUrls_blocked_domain
    (P : Platform) (startUrl : string) (baseUrl : URL.t) (domain : string)
    (w : World) :
  new_URL P startUrl = Returned baseUrl ->
  domain ∈ ["google.com"; "facebook.com"; "twitter.com"; "instagram.com";
            "linkedin.com"] ->
  substring_of domain (URL.hostname baseUrl) ->
  discoverUrls P startUrl w
  = (w, Threw (JsError ("The domain " +:+ URL.hostname baseUrl +:+
       " typically blocks automated crawling. Please try a different website like example.com, wikipedia.org, or your own website.")))
  /\ requests (discoverUrls P startUrl w).1 = requests w.
Proof.
  intros Hurl Hin Hsub.
  assert (Hrun : discoverUrls P startUrl w
                 = (w, Threw (JsError (blocked_domain_message (URL.hostname baseUrl))))).
  { unfold discoverUrls, bind, lift, throw. rewrite Hurl.
    replace (existsb _ blockedDomains) with true; [reflexivity|].
    symmetry. apply existsb_exists. exists domain. split.
    - apply list_elem_of_In. exact Hin.
    - apply includes_substring_of. exact Hsub. }
  split; [exact Hrun | now rewrite Hrun].
Qed.

Lemma discoverUrls_blocked_domain_witness :
  discoverUrls Demo.platform "https://www.google.com/search" Demo.start
  = (Demo.start,
     Threw (JsError "The domain www.google.com typically blocks automated crawling. Please try a different website like example.com, wikipedia.org, or your own website."))
  /\ requests (discoverUrls Demo.platform "https://www.google.com/search" Demo.start).1 = [].
Proof.
  apply (discoverUrls_blocked_domain Demo.platform
           "https://www.google.com/search"
           {| URL.protocol := "https:"; URL.host := "www.google.com";
              URL.hostname := "www.google.com";
              URL.href := "https://www.google.com/search" |}
           "google.com" Demo.start).
  - reflexivity.
  - apply list_elem_of_here.
  - exists "www.", "". reflexivity.
Defined.



(** ** PageCrawler *)

Section PageCrawlerFacts.

Context (P : Platform).

(** The outcome of [crawlSinglePage] in terms of its fetch, with the
    world in which the fetch starts. *)
Lemma crawlSinglePage_cases (url : string) (w : World) :
  let fetched := fetchWithRetry P url 3 (generateId P w).1 in
  exists page w',
    crawlSinglePage P url w = (w', Returned page)
    /\ pages w' !! Page.id page = Some page
    /\ delivered w' = delivered w
    /\ Page.url page = url
    /\ is_Some (Page.crawledAt page)
    /\ Page.wordCount page = Some (countWords (Page.content page))
    /\ match fetched.2 with
       | Threw e => error_record page url (message_of e)
       | Returned response =>
           if ok response then
             match text response with
             | Threw e => error_record page url (message_of e)
             | Returned html =>
                 match cheerio_load P html with
                 | Threw e => error_record page url (message_of e)
                 | Returned doc =>
                     match extractMainContent P doc with
                     | Threw e => error_record page url (message_of e)
                     | Returned content =>
                         Page.status page = Completed
                         /\ Page.content page = content
                         /\ Page.summary page = Some (generateSummary content)
                         /\ Page.error page = None
                     end
                 end
             end
           else
             error_record page url
               ("HTTP " +:+ Js.of_number (http_status response) +:+ ": "
                +:+ statusText response)
       end.
Proof.
  cbv zeta.
  unfold crawlSinglePage, crawl_attempt, bind, try_catch, lift, ret, throw.
  unfold generateId at 1 2. cbn [fst].
  set (w0 := {| requests := requests w; entropy := S (entropy w);
                pages := pages w; delivered := delivered w |}).
  destruct (fetchWithRetry_frame P url 3 w0) as (_ & _ & Hd).
  destruct (fetchWithRetry P url 3 w0) as [w1 [response|e]];
    cbn [fst snd] in *.
  2: { eexists _, _. split; [reflexivity|]. cbn.
       rewrite lookup_insert_eq. unfold error_record. cbn.
       repeat split; eauto. }
  destruct (ok response); cbn [negb].
  2: { eexists _, _. split; [reflexivity|]. cbn.
       rewrite lookup_insert_eq. unfold error_record. cbn.
       repeat split; eauto. }
  destruct (text response) as [html|e].
  2: { eexists _, _. split; [reflexivity|]. cbn.
       rewrite lookup_insert_eq. unfold error_record. cbn.
       repeat split; eauto. }
  destruct (cheerio_load P html) as [doc|e].
  2: { eexists _, _. split; [reflexivity|]. cbn.
       rewrite lookup_insert_eq. unfold error_record. cbn.
       repeat split; eauto. }
  destruct (extractMainContent P doc) as [content|e].
  2: { eexists _, _. split; [reflexivity|]. cbn.
       rewrite lookup_insert_eq. unfold error_record. cbn.
       repeat split; eauto. }
  eexists _, _. split; [reflexivity|]. cbn.
  rewrite lookup_insert_eq. repeat split; eauto.
Qed.

End PageCrawlerFacts.

(** C3: [crawlSinglePage] always returns a record and never throws; the
    record is in the store under its id when the call returns and carries
    a timestamp; and when the fetch throws, the response is not ok, the
    body cannot be read, or parsing or extraction throws, it is an error
    record: status [Error], empty content, word count 0 and the message of
    what was thrown (for a response that is not ok, its status code and
    text). *)
Theorem crawlSinglePage_never_throws (P : Platform) (url : string) (w : World) :
  exists page w',
    crawlSinglePage P url w = (w', Returned page)
    /\ pages w' !! Page.id page = Some page
    /\ is_Some (Page.crawledAt page)
    /\ let fetched := fetchWithRetry P url 3 (generateId P w).1 in
       (forall e, fetched.2 = Threw e -> error_record page url (message_of e))
       /\ (forall response,
             fetched.2 = Returned response -> ok response = false ->
             error_record page url
               ("HTTP " +:+ Js.of_number (http_status response) +:+ ": "
                +:+ statusText response))
       /\ (forall response e,
             fetched.2 = Returned response -> ok response = true ->
             text response = Threw e ->
             error_record page url (message_of e))
       /\ (forall response html e,
             fetched.2 = Returned response -> ok response = true ->
             text response = Returned html -> cheerio_load P html = Threw e ->
             error_record page url (message_of e))
       /\ (forall response html doc e,
             fetched.2 = Returned response -> ok response = true ->
             text response = Returned html -> cheerio_load P html = Returned doc ->
             extractMainContent P doc = Threw e ->
             error_record page url (message_of e))
       /\ (forall response html doc content,
             fetched.2 = Returned response -> ok response = true ->
             text response = Returned html -> cheerio_load P html = Returned doc ->
             extractMainContent P doc = Returned content ->
             Page.status page = Completed /\ Page.content page = content).
Proof.
  destruct (crawlSinglePage_cases P url w)
    as (page & w' & Hrun & Hstored & _ & _ & Hstamp & _ & Hcases).
  exists page, w'. split; [exact Hrun|]. split; [exact Hstored|].
  split; [exact Hstamp|]. cbv zeta.
  split; [|split; [|split; [|split; [|split]]]].
  - intros e He. now rewrite He in Hcases.
  - intros response Hr Hok. now rewrite Hr, Hok in Hcases.
  - intros response e Hr Hok Ht. now rewrite Hr, Hok, Ht in Hcases.
  - intros response html e Hr Hok Ht Hl. now rewrite Hr, Hok, Ht, Hl in Hcases.
  - intros response html doc e Hr Hok Ht Hl Hx.
    now rewrite Hr, Hok, Ht, Hl, Hx in Hcases.
  - intros response html doc content Hr Hok Ht Hl Hx.
    rewrite Hr, Hok, Ht, Hl, Hx in Hcases.
    destruct Hcases as (Hs & Hc & _). auto.
Qed.

Lemma crawlSinglePage_never_throws_witness :
  exists page w',
    crawlSinglePage Demo.platform "https://example.com/a" Demo.start
    = (w', Returned page)
    /\ pages w' !! Page.id page = Some page
    /\ error_record page "https://example.com/a" "fetch failed".
Proof.
  destruct (crawlSinglePage_never_throws Demo.platform "https://example.com/a"
              Demo.start)
    as (page & w' & Hrun & Hstored & _ & Hthrown & _).
  exists page, w'. split; [exact Hrun|]. split; [exact Hstored|].
  apply (Hthrown (JsError "fetch failed")). reflexivity.
Defined.

(** C9: the word count stored in the record that [crawlSinglePage]
    returns is the number of whitespace-delimited non-empty tokens of the
    record's content, which are determined by the content. *)
Theorem crawlSinglePage_wordCount
    (P : Platform) (url : string) (w w' : World) (page : Page.t) :
  crawlSinglePage P url w = (w', Returned page) ->
  exists tokens,
    Tokens (Page.content page) tokens
    /\ (forall ts, Tokens (Page.content page) ts -> ts = tokens)
    /\ Page.wordCount page = Some (length tokens).
Proof.
  intros Hrun.
  destruct (crawlSinglePage_cases P url w)
    as (page' & w'' & Hrun' & _ & _ & _ & _ & Hcount & _).
  rewrite Hrun in Hrun'. injection Hrun' as _ <-.
  destruct (countWords_Tokens (Page.content page)) as (tokens & Htok & Huniq & Hlen).
  exists tokens. rewrite Hcount, Hlen. auto.
Qed.

Lemma crawlSinglePage_wordCount_witness :
  exists page w' tokens,
    crawlSinglePage Demo.platform Demo.home Demo.start = (w', Returned page)
    /\ Page.content page = "Hello world. This works."
    /\ Tokens (Page.content page) tokens
    /\ Page.wordCount page = Some (length tokens)
    /\ Page.wordCount page = Some 4.
Proof.
  destruct (crawlSinglePage Demo.platform Demo.home Demo.start)
    as [w' [page|e]] eqn:Hrun; [|vm_compute in Hrun; discriminate].
  destruct (crawlSinglePage_wordCount Demo.platform Demo.home Demo.start w' page Hrun)
    as (tokens & Htok & _ & Hlen).
  exists page, w', tokens. split; [reflexivity|].
  vm_compute in Hrun. injection Hrun as _ <-.
  split; [reflexivity|]. split; [exact Htok|]. split; [exact Hlen | reflexivity].
Defined.

(** ** CrawlOrchestrator *)

Section OrchestratorFacts.

Context (P : Platform).

Lemma discover_step_delivered (baseUrl : URL.t) (st : Frontier) (w : World) :
  delivered (discover_step P baseUrl st w).1 = delivered w.
Proof.
  unfold discover_step.
  destruct (urlsToVisit st) as [|currentUrl rest]; [reflexivity|].
  case_bool_decide; [reflexivity|].
  set (marked := mark_discovered currentUrl rest st).
  pose proof (scan_page_cases P baseUrl currentUrl marked w) as Hscan.
  cbv zeta in Hscan.
  destruct (fetchWithRetry_frame P currentUrl 2 w) as (_ & _ & Hd).
  destruct (fetchWithRetry P currentUrl 2 w) as [w1 [response|e]];
    cbn [fst snd] in *; [|now rewrite Hscan].
  destruct (ok response); [|now rewrite Hscan].
  destruct (text response) as [html|e]; [|now rewrite Hscan].
  destruct (cheerio_load P html) as [doc|e]; now rewrite Hscan.
Qed.

Lemma discover_loop_delivered (baseUrl : URL.t) (s : World * Frontier) :
  delivered (discover_loop P baseUrl s).1 = delivered s.1.
Proof.
  funelim (discover_loop P baseUrl s); [|reflexivity].
  match goal with IH : delivered _ = _ |- _ => rewrite IH end.
  apply discover_step_delivered.
Qed.

Lemma discoverUrls_delivered (startUrl : string) (w : World) :
  delivered (discoverUrls P startUrl w).1 = delivered w.
Proof.
  unfold discoverUrls, bind, lift, throw.
  destruct (new_URL P startUrl) as [baseUrl|e]; [|reflexivity].
  destruct (existsb _ _); [reflexivity|].
  cbn [fst]. apply discover_loop_delivered.
Qed.

(** With a callback that never throws, the page loop delivers a progress
    event and a page event for every URL, in order, and counts every
    URL. *)
Lemma crawl_each_events (callback : ProgressCallback) (totalPages : nat)
    (urls : list string) :
  quiet callback ->
  forall (done : nat) (w : World),
  exists records w',
    crawl_each P callback totalPages urls done w
    = (w', Returned (done + length urls))
    /\ Forall2 (fun url page => Page.url page = url) urls records
    /\ delivered w' = delivered w ++ page_events totalPages done urls records.
Proof.
  intros Hquiet.
  induction urls as [|url rest IH]; intros done w.
  - exists [], w. simpl. rewrite Nat.add_0_r, app_nil_r.
    repeat split. constructor.
  - simpl. unfold bind at 1. unfold onProgress at 1. rewrite Hquiet.
    set (w1 := {| requests := requests w; entropy := entropy w;
                  pages := pages w;
                  delivered := delivered w ++ [_] |}).
    destruct (crawlSinglePage_cases P url w1)
      as (page & w2 & Hrun & _ & Hd2 & Hurl & _).
    unfold bind at 1, try_catch. unfold bind at 1. rewrite Hrun.
    unfold bind at 1, onProgress at 1, ret at 1. rewrite Hquiet.
    set (w3 := {| requests := requests w2; entropy := entropy w2;
                  pages := pages w2;
                  delivered := delivered w2 ++ [EvPage page] |}).
    destruct (IH (S done) w3) as (records & w' & Hrest & Hall & Hd).
    exists (page :: records), w'. rewrite Hrest.
    split; [f_equal; f_equal; lia|].
    split; [constructor; assumption|].
    rewrite Hd. subst w3 w1. cbn [delivered]. rewrite Hd2. cbn [delivered].
    rewrite <- !app_assoc. reflexivity.
Qed.




End OrchestratorFacts.

(** The run on the simulated web: two URLs, the second unreachable. *)
Example demo_run_counts :
  progress_counts
    (delivered (crawlWebsite Demo.platform Demo.home Demo.sink Demo.start).1)
  = [0; 0; 1]
  /\ last (delivered (crawlWebsite Demo.platform Demo.home Demo.sink Demo.start).1)
     = Some (EvComplete 2).
Proof. split; vm_compute; reflexivity. Qed.




(** * Further properties of the code *)

(** ** Fetcher: how many requests, and which outcome *)

Section FetcherMore.

Context (P : Platform).

Lemma fetch_attempts_requests (url : string) (maxRetries left attempt : nat)
    (w : World) :
  exists k,
    k <= left /\ (0 < left -> 1 <= k)
    /\ requests (fetch_attempts P url maxRetries attempt left w).1
       = requests w ++ replicate k url.
Proof.
  revert attempt w; induction left as [|left IH]; intros attempt w.
  - exists 0. simpl. rewrite app_nil_r. repeat split; lia.
  - simpl. unfold try_catch, do_fetch.
    destruct (fetch P (requests w) url) as [response|e].
    + exists 1. simpl. repeat split; lia.
    + destruct (attempt =? maxRetries).
      * exists 1. repeat split; try lia.
        destruct (_ || _); [|reflexivity].
        unfold bind, lift, throw. destruct (new_URL P url); reflexivity.
      * destruct (IH (S attempt)
                    {| requests := requests w ++ [url]; entropy := entropy w;
                       pages := pages w; delivered := delivered w |})
          as (k & Hk & _ & Hreq).
        exists (S k). repeat split; try lia.
        rewrite Hreq. cbn [requests]. rewrite <- app_assoc. reflexivity.
Qed.

Lemma fetchWithRetry_requests (url : string) (maxRetries : nat) (w : World) :
  exists k,
    k <= maxRetries /\ (0 < maxRetries -> 1 <= k)
    /\ requests (fetchWithRetry P url maxRetries w).1
       = requests w ++ replicate k url.
Proof. apply fetch_attempts_requests. Qed.

Lemma fetch_attempts_first_success (url : string) (maxRetries k : nat)
    (response : Response) :
  forall (left attempt : nat) (w : World),
    attempt + left = S maxRetries -> k < left ->
    (forall j, j < k ->
       exists e, fetch P (requests w ++ replicate j url) url = Threw e) ->
    fetch P (requests w ++ replicate k url) url = Returned response ->
    fetch_attempts P url maxRetries attempt left w
    = ({| requests := requests w ++ replicate (S k) url;
          entropy := entropy w; pages := pages w; delivered := delivered w |},
       Returned response).
Proof.
  induction k as [|k IH]; intros left attempt w Hsum Hlt Hfail Hok;
    (destruct left as [|left]; [lia|]); simpl; unfold try_catch, do_fetch.
  - simpl in Hok. rewrite app_nil_r in Hok. rewrite Hok. reflexivity.
  - destruct (Hfail 0 ltac:(lia)) as [e0 He0].
    simpl in He0. rewrite app_nil_r in He0. rewrite He0.
    replace (attempt =? maxRetries) with false
      by (symmetry; apply Nat.eqb_neq; lia).
    rewrite (IH left (S attempt)
               {| requests := requests w ++ [url]; entropy := entropy w;
                  pages := pages w; delivered := delivered w |}).
    + cbn [requests entropy pages delivered]. rewrite <- app_assoc. reflexivity.
    + lia.
    + lia.
    + intros j Hj. destruct (Hfail (S j) ltac:(lia)) as [e He].
      exists e. cbn [requests]. rewrite <- app_assoc. exact He.
    + cbn [requests]. rewrite <- app_assoc. exact Hok.
Qed.

End FetcherMore.

(** A network that drops the first request and then answers 404. *)
Module Flaky.

Definition not_found : Response :=
  {| ok := false; http_status := 404; statusText := "Not Found";
     text := Returned "" |}.

Definition network (history : list string) (url : string) : outcome Response :=
  match history with
  | [] => Threw (JsError "socket hang up")
  | _ => Returned not_found
  end.

(** Ids that are different by their length. *)
Definition unary_id (n : nat) : string := Nat.iter (S n) (String "i") "".

Definition platform : Platform :=
  {| Document := Demo.Doc;
     fetch := network;
     new_URL := Demo.parse_url;
     new_URL_base := fun s b => Threw (JsError "Invalid URL");
     cheerio_load := Demo.parse_html;
     anchor_hrefs := Demo.anchors;
     title_text := fun _ => "";
     h1_text := fun _ => "";
     og_title := fun _ => None;
     meta_title := fun _ => None;
     extractMainContent := fun doc => Returned (Demo.main_text doc);
     random_id := unary_id;
     iso_time := fun n => "t" +:+ Js.of_number (N.of_nat n) |}.

End Flaky.

(** X1: [fetchWithRetry] sends between one and [maxRetries] requests, all
    for the given URL, and changes nothing else: not the store, not the
    events, not the clock.  With [maxRetries = 0] it sends none and throws
    "Max retries exceeded". *)
Theorem fetchWithRetry_request_bound
    (P : Platform) (url : string) (maxRetries : nat) (w : World) :
  (exists k,
     k <= maxRetries /\ (0 < maxRetries -> 1 <= k)
     /\ requests (fetchWithRetry P url maxRetries w).1
        = requests w ++ replicate k url)
  /\ pages (fetchWithRetry P url maxRetries w).1 = pages w
  /\ delivered (fetchWithRetry P url maxRetries w).1 = delivered w
  /\ entropy (fetchWithRetry P url maxRetries w).1 = entropy w
  /\ fetchWithRetry P url 0 w = (w, Threw (JsError "Max retries exceeded")).
Proof.
  destruct (fetchWithRetry_frame P url maxRetries w) as (He & Hp & Hd).
  split; [apply fetchWithRetry_requests|].
  repeat split; assumption.
Qed.

(** X2: the first attempt that gets a response ends the call with that
    response, whatever its HTTP status: after [k] failed attempts and a
    response at attempt [k + 1 <= maxRetries], exactly [k + 1] requests
    were sent and the response is returned as it is. *)
Theorem fetchWithRetry_first_response
    (P : Platform) (url : string) (maxRetries k : nat) (response : Response)
    (w : World) :
  k < maxRetries ->
  (forall j, j < k ->
     exists e, fetch P (requests w ++ replicate j url) url = Threw e) ->
  fetch P (requests w ++ replicate k url) url = Returned response ->
  fetchWithRetry P url maxRetries w
  = ({| requests := requests w ++ replicate (S k) url;
        entropy := entropy w; pages := pages w; delivered := delivered w |},
     Returned response).
Proof.
  intros Hk Hfail Hok.
  apply (fetch_attempts_first_success P url maxRetries k response
           maxRetries 1 w); [lia | exact Hk | exact Hfail | exact Hok].
Qed.

Lemma fetchWithRetry_first_response_witness :
  fetchWithRetry Flaky.platform "https://example.com/x" 3 Demo.start
  = ({| requests := ["https://example.com/x"; "https://example.com/x"];
        entropy := 0; pages := ∅; delivered := [] |},
     Returned Flaky.not_found).
Proof.
  apply (fetchWithRetry_first_response Flaky.platform "https://example.com/x"
           3 1 Flaky.not_found Demo.start).
  - lia.
  - intros j Hj. assert (j = 0) as -> by lia.
    exists (JsError "socket hang up"). reflexivity.
  - reflexivity.
Defined.

(** X3: when all [maxRetries] attempts fail for a URL that contains none
    of google.com, facebook.com and twitter.com, exactly [maxRetries]
    requests were sent and the error of the last attempt is thrown
    unchanged. *)
Theorem fetchWithRetry_exhausted_rethrows
    (P : Platform) (url : string) (maxRetries : nat) (w : World) :
  0 < maxRetries ->
  Js.includes url "google.com" = false ->
  Js.includes url "facebook.com" = false ->
  Js.includes url "twitter.com" = false ->
  (forall k, k < maxRetries ->
     exists e, fetch P (requests w ++ replicate k url) url = Threw e) ->
  exists last,
    fetch P (requests w ++ replicate (maxRetries - 1) url) url = Threw last
    /\ fetchWithRetry P url maxRetries w
       = ({| requests := requests w ++ replicate maxRetries url;
             entropy := entropy w; pages := pages w; delivered := delivered w |},
          Threw last).
Proof.
  intros Hpos Hg Hf Ht Hfail.
  destruct (fetch_attempts_exhausted P url maxRetries maxRetries 1 w
              ltac:(lia) Hpos Hfail) as (last & Hlast & Hrun).
  exists last. split; [exact Hlast|].
  unfold fetchWithRetry. rewrite Hrun, Hg, Hf, Ht. reflexivity.
Qed.

Lemma fetchWithRetry_exhausted_rethrows_witness :
  exists last,
    fetch Demo.platform ["https://example.com/a"] "https://example.com/a"
    = Threw last
    /\ fetchWithRetry Demo.platform "https://example.com/a" 2 Demo.start
       = ({| requests := ["https://example.com/a"; "https://example.com/a"];
             entropy := 0; pages := ∅; delivered := [] |},
          Threw last).
Proof.
  apply (fetchWithRetry_exhausted_rethrows Demo.platform
           "https://example.com/a" 2 Demo.start);
    [lia | reflexivity | reflexivity | reflexivity |].
  intros k Hk. exists (JsError "fetch failed"). reflexivity.
Defined.

(** ** UrlDiscoverer: when it fails, what it returns, what it requests *)

Section DiscoveryMore.

Context (P : Platform) (baseUrl : URL.t).

Lemma accepted_link_passes (currentUrl : string) (st : Frontier)
    (href link : string) :
  accepted_link P baseUrl currentUrl st href = Some link ->
  passes_filter P baseUrl link.
Proof.
  unfold accepted_link. destruct (String.eqb href ""); [discriminate|].
  destruct (absolute_of P baseUrl currentUrl href) as [absoluteUrl|e];
    [|discriminate].
  destruct (new_URL P absoluteUrl) as [urlObj|e] eqn:Hurl; [|discriminate].
  destruct (_ && _) eqn:Htest; [|discriminate].
  intros [= <-].
  repeat (apply andb_prop in Htest as [Htest ?]).
  repeat match goal with
         | H : negb _ = true |- _ => apply negb_true_iff in H
         end.
  apply String.eqb_eq in Htest.
  unfold passes_filter. eauto 10.
Qed.

(** The world after an iteration that discovers a URL is the world after
    its fetch. *)
Lemma discover_step_world (st : Frontier) (currentUrl : string)
    (rest : list string) (w : World) :
  urlsToVisit st = currentUrl :: rest ->
  currentUrl ∉ visitedUrls st ->
  (discover_step P baseUrl st w).1 = (fetchWithRetry P currentUrl 2 w).1.
Proof.
  intros Hq Hv. rewrite (discover_step_new P baseUrl st currentUrl rest w Hq Hv).
  pose proof (scan_page_cases P baseUrl currentUrl
                (mark_discovered currentUrl rest st) w) as Hscan.
  cbv zeta in Hscan.
  destruct (fetchWithRetry P currentUrl 2 w) as [w1 [response|e]];
    cbn [fst snd] in *; [|now rewrite Hscan].
  destruct (ok response); [|now rewrite Hscan].
  destruct (text response) as [html|e]; [|now rewrite Hscan].
  destruct (cheerio_load P html) as [doc|e]; now rewrite Hscan.
Qed.

(** The queue after an iteration that discovers a URL: the rest, and
    accepted links of the page. *)
Lemma discover_step_queue (st : Frontier) (currentUrl : string)
    (rest : list string) (w : World) :
  urlsToVisit st = currentUrl :: rest ->
  currentUrl ∉ visitedUrls st ->
  exists links,
    urlsToVisit (discover_step P baseUrl st w).2 = rest ++ links
    /\ length links <= 10
    /\ Forall (passes_filter P baseUrl) links.
Proof.
  intros Hq Hv. rewrite (discover_step_new P baseUrl st currentUrl rest w Hq Hv).
  pose proof (scan_page_cases P baseUrl currentUrl
                (mark_discovered currentUrl rest st) w) as Hscan.
  cbv zeta in Hscan.
  assert (Hnone : exists links : list string,
             rest = rest ++ links /\ length links <= 10
             /\ Forall (passes_filter P baseUrl) links).
  { exists []. rewrite app_nil_r. repeat split; [simpl; lia | constructor]. }
  destruct (fetchWithRetry P currentUrl 2 w) as [w1 [response|e]];
    cbn [fst snd] in *; [|now rewrite Hscan].
  destruct (ok response); [|now rewrite Hscan].
  destruct (text response) as [html|e]; [|now rewrite Hscan].
  destruct (cheerio_load P html) as [doc|e]; [|now rewrite Hscan].
  rewrite Hscan. cbn [snd urlsToVisit mark_discovered].
  eexists. split; [reflexivity|]. split.
  - rewrite length_take. lia.
  - apply Forall_take. apply Forall_forall. intros link Hlink.
    apply list_elem_of_omap in Hlink as (href & _ & Hacc).
    now apply accepted_link_passes in Hacc.
Qed.

(** The invariant rule for properties that also concern the world. *)
Lemma discover_loop_invariant_world (I : World * Frontier -> Prop) :
  (forall s, I s -> loop_guard s.2 = true ->
             I (discover_step P baseUrl s.2 s.1)) ->
  forall s, I s -> I (discover_loop P baseUrl s).
Proof.
  intros Hstep s. funelim (discover_loop P baseUrl s); intros Hs.
  - match goal with IH : forall I : World * Frontier -> Prop, _ |- _ =>
      apply IH; [exact Hstep | now apply Hstep] end.
  - exact Hs.
Qed.

Lemma discover_step_filtered (startUrl : string) (st : Frontier) (w : World) :
  let fine := fun u => u = startUrl \/ passes_filter P baseUrl u in
  Forall fine (urlsToVisit st) /\ Forall fine (discoveredUrls st) ->
  Forall fine (urlsToVisit (discover_step P baseUrl st w).2)
  /\ Forall fine (discoveredUrls (discover_step P baseUrl st w).2).
Proof.
  intros fine [Hq Hd].
  destruct (urlsToVisit st) as [|currentUrl rest] eqn:Equeue.
  - unfold discover_step. rewrite Equeue. simpl. rewrite Equeue. auto.
  - apply Forall_cons in Hq as [Hcur Hrest].
    destruct (decide (currentUrl ∈ visitedUrls st)) as [Hv|Hv].
    + rewrite (discover_step_skip P baseUrl st currentUrl rest w Equeue Hv).
      auto.
    + destruct (discover_step_queue st currentUrl rest w Equeue Hv)
        as (links & -> & _ & Hlinks).
      destruct (discover_step_marks P baseUrl st currentUrl rest w Equeue Hv)
        as [_ ->].
      split; apply Forall_app; split; auto.
      eapply Forall_impl; [exact Hlinks|]. intros u Hu. now right.
Qed.

(** During the loop every discovered URL is requested once or twice, in
    the order of discovery, and nothing else changes in the world. *)
Lemma discover_step_requests (w0 : World) (s : World * Frontier) :
  let I := fun s : World * Frontier =>
    (exists ks,
       length ks = length (discoveredUrls s.2)
       /\ Forall (fun k => 1 <= k <= 2) ks
       /\ requests s.1
          = requests w0 ++ concat (zip_with replicate ks (discoveredUrls s.2)))
    /\ pages s.1 = pages w0 /\ entropy s.1 = entropy w0 in
  I s -> I (discover_step P baseUrl s.2 s.1).
Proof.
  destruct s as [w st]. cbn [fst snd].
  intros ((ks & Hlen & Hks & Hreq) & Hp & He).
  destruct (urlsToVisit st) as [|currentUrl rest] eqn:Equeue.
  { unfold discover_step. rewrite Equeue. cbn [fst snd]. eauto 10. }
  destruct (decide (currentUrl ∈ visitedUrls st)) as [Hv|Hv].
  { rewrite (discover_step_skip P baseUrl st currentUrl rest w Equeue Hv).
    cbn [fst snd discoveredUrls]. eauto 10. }
  rewrite (discover_step_world st currentUrl rest w Equeue Hv).
  destruct (discover_step_marks P baseUrl st currentUrl rest w Equeue Hv)
    as [_ ->].
  destruct (fetchWithRetry_frame P currentUrl 2 w) as (He' & Hp' & _).
  destruct (fetchWithRetry_requests P currentUrl 2 w) as (k & Hk2 & Hk1 & Hreq').
  split; [|split; congruence].
  exists (ks ++ [k]). split; [rewrite !length_app; simpl; lia|].
  split; [apply Forall_app; split; [exact Hks | constructor; [lia | constructor]]|].
  rewrite Hreq', Hreq, zip_with_app by exact Hlen.
  rewrite concat_app. simpl. rewrite app_nil_r, <- app_assoc. reflexivity.
Qed.

End DiscoveryMore.

(** X4: [discoverUrls] throws in two cases only.  It returns a list
    exactly when the seed parses as a URL and its hostname contains none
    of the five deny-listed domains; a seed that does not parse makes it
    throw the parser's error without a request. *)
Theorem discoverUrls_returns_iff (P : Platform) (startUrl : string) (w : World) :
  ((exists urls, (discoverUrls P startUrl w).2 = Returned urls)
   <-> exists baseUrl,
         new_URL P startUrl = Returned baseUrl
         /\ forall domain, domain ∈ blockedDomains ->
                           ~ substring_of domain (URL.hostname baseUrl))
  /\ (forall e, new_URL P startUrl = Threw e ->
                discoverUrls P startUrl w = (w, Threw e)).
Proof.
  unfold discoverUrls, bind, lift, throw.
  destruct (new_URL P startUrl) as [baseUrl|e].
  2: { split; [|intros e' [= <-]; reflexivity].
       split; [intros [urls [=]] | intros (b & [=] & _)]. }
  split; [|discriminate].
  destruct (existsb _ _) eqn:Hblocked; cbn [snd].
  - split; [intros [urls [=]]|].
    intros (b & [= <-] & Hfree). exfalso.
    apply existsb_exists in Hblocked as (domain & Hin & Hinc).
    apply (Hfree domain); [now apply list_elem_of_In | now apply includes_inv].
  - split; [|eauto].
    intros _. exists baseUrl. split; [reflexivity|].
    intros domain Hin Hsub.
    assert (existsb (fun d => Js.includes (URL.hostname baseUrl) d)
              blockedDomains = true) as Hyes; [|congruence].
    apply existsb_exists. exists domain.
    split; [now apply list_elem_of_In | now apply includes_substring_of].
Qed.

(** The URLs that discovery returns besides the seed have passed the
    filter. *)
Lemma discoverUrls_filtered
    (P : Platform) (startUrl : string) (w w' : World) (urls : list string) :
  discoverUrls P startUrl w = (w', Returned urls) ->
  exists baseUrl,
    new_URL P startUrl = Returned baseUrl
    /\ Forall (fun u => u = startUrl \/ passes_filter P baseUrl u) urls.
Proof.
  unfold discoverUrls, bind, lift, throw.
  destruct (new_URL P startUrl) as [baseUrl|e]; [|discriminate].
  destruct (existsb _ _); [discriminate|].
  intros [= _ <-]. exists baseUrl. split; [reflexivity|].
  set (st0 := {| visitedUrls := ∅; urlsToVisit := [startUrl];
                 discoveredUrls := [] |}).
  apply (discover_loop_invariant P baseUrl
           (fun st =>
              Forall (fun u => u = startUrl \/ passes_filter P baseUrl u)
                (urlsToVisit st)
              /\ Forall (fun u => u = startUrl \/ passes_filter P baseUrl u)
                   (discoveredUrls st))).
  - intros st w1 Hst _. now apply discover_step_filtered.
  - simpl. split; repeat constructor.
Qed.

(** X5: every URL that [discoverUrls] returns is the seed itself or a link
    that passed the filter: it parses as a URL with the hostname of the
    seed, contains no fragment mark, does not end in one of the non-HTML
    extensions, and contains neither "mailto:" nor "tel:". *)
Theorem discoverUrls_same_host
    (P : Platform) (startUrl : string) (w w' : World) (urls : list string)
    (u : string) :
  discoverUrls P startUrl w = (w', Returned urls) ->
  u ∈ urls ->
  u = startUrl
  \/ exists baseUrl urlObj,
       new_URL P startUrl = Returned baseUrl
       /\ new_URL P u = Returned urlObj
       /\ URL.hostname urlObj = URL.hostname baseUrl
       /\ Js.includes u "#" = false
       /\ matches_non_html u = false
       /\ Js.includes u "mailto:" = false
       /\ Js.includes u "tel:" = false.
Proof.
  intros Hrun Hu.
  destruct (discoverUrls_filtered P startUrl w w' urls Hrun)
    as (baseUrl & Hbase & Hall).
  rewrite Forall_forall in Hall.
  destruct (Hall u Hu) as [->|((urlObj & Hparse & Hhost) & H1 & H2 & H3 & H4)];
    [now left|].
  right. exists baseUrl, urlObj. auto 10.
Qed.

Lemma discoverUrls_same_host_witness :
  "https://example.com/a" = Demo.home
  \/ exists baseUrl urlObj,
       new_URL Demo.platform Demo.home = Returned baseUrl
       /\ new_URL Demo.platform "https://example.com/a" = Returned urlObj
       /\ URL.hostname urlObj = URL.hostname baseUrl
       /\ Js.includes "https://example.com/a" "#" = false
       /\ matches_non_html "https://example.com/a" = false
       /\ Js.includes "https://example.com/a" "mailto:" = false
       /\ Js.includes "https://example.com/a" "tel:" = false.
Proof.
  apply (discoverUrls_same_host Demo.platform Demo.home Demo.start
           {| requests := [Demo.home; "https://example.com/a";
                           "https://example.com/a"];
              entropy := 0; pages := ∅; delivered := [] |}
           [Demo.home; "https://example.com/a"]).
  - vm_compute. reflexivity.
  - apply list_elem_of_further, list_elem_of_here.
Defined.

Lemma length_concat_replicate (ks : list nat) (urls : list string) :
  Forall (fun k => 1 <= k <= 2) ks ->
  length (concat (zip_with replicate ks urls)) <= 2 * length urls.
Proof.
  intros Hks. revert urls.
  induction Hks as [|k ks Hk _ IH]; intros [|u urls]; simpl; try lia.
  rewrite length_app, length_replicate. specialize (IH urls). lia.
Qed.

(** Discovery sends at most 100 requests, returns at most 50 URLs and
    touches neither the store, nor the clock, nor the callback. *)
Lemma discoverUrls_frame (P : Platform) (startUrl : string) (w : World) :
  length (requests (discoverUrls P startUrl w).1) <= length (requests w) + 100
  /\ pages (discoverUrls P startUrl w).1 = pages w
  /\ entropy (discoverUrls P startUrl w).1 = entropy w
  /\ delivered (discoverUrls P startUrl w).1 = delivered w
  /\ forall urls, (discoverUrls P startUrl w).2 = Returned urls ->
                  length urls <= 50.
Proof.
  pose proof (discoverUrls_delivered P startUrl w) as Hd. revert Hd.
  unfold discoverUrls, bind, lift, throw.
  destruct (new_URL P startUrl) as [baseUrl|e]; cbn [fst snd];
    [|intros _; repeat split; [lia | discriminate]].
  destruct (existsb _ _); cbn [fst snd];
    [intros _; repeat split; [lia | discriminate]|].
  intros Hd.
  set (st0 := {| visitedUrls := ∅; urlsToVisit := [startUrl];
                 discoveredUrls := [] |}) in *.
  destruct (discover_loop_invariant P baseUrl frontier_ok
              (discover_step_ok P baseUrl) (w, st0)) as [(_ & _ & Hlen) _].
  { repeat split; simpl; [apply NoDup_nil_2 | intros x Hx | lia].
    now apply elem_of_nil in Hx. }
  pose proof (discover_loop_invariant_world P baseUrl _
                (fun s Hs _ => discover_step_requests P baseUrl w s Hs) (w, st0))
    as Hinv.
  cbv beta in Hinv.
  destruct Hinv as ((ks & Hks_len & Hks & Hreq) & Hp & He).
  { split; [|auto]. exists []. simpl. rewrite app_nil_r. auto. }
  pose proof (length_concat_replicate ks
                (discoveredUrls (discover_loop P baseUrl (w, st0)).2) Hks).
  split; [rewrite Hreq, length_app; lia|].
  split; [exact Hp|]. split; [exact He|]. split; [exact Hd|].
  intros urls [= <-]. exact Hlen.
Qed.

(** X6: while it runs, [discoverUrls] requests every URL it returns once
    or twice, in the order of the result, and requests nothing else: at
    most 100 requests.  It stores nothing, delivers no event and does not
    read the clock. *)
Theorem discoverUrls_requests
    (P : Platform) (startUrl : string) (w w' : World) (urls : list string) :
  discoverUrls P startUrl w = (w', Returned urls) ->
  (exists ks,
     length ks = length urls
     /\ Forall (fun k => 1 <= k <= 2) ks
     /\ requests w' = requests w ++ concat (zip_with replicate ks urls))
  /\ length (requests w') <= length (requests w) + 100
  /\ pages w' = pages w /\ entropy w' = entropy w /\ delivered w' = delivered w.
Proof.
  intros Hrun.
  pose proof (discoverUrls_delivered P startUrl w) as Hd.
  rewrite Hrun in Hd. cbn [fst] in Hd.
  revert Hrun. unfold discoverUrls, bind, lift, throw.
  destruct (new_URL P startUrl) as [baseUrl|e]; [|discriminate].
  destruct (existsb _ _); [discriminate|].
  intros [= <- <-].
  set (st0 := {| visitedUrls := ∅; urlsToVisit := [startUrl];
                 discoveredUrls := [] |}) in *.
  destruct (discover_loop_invariant P baseUrl frontier_ok
              (discover_step_ok P baseUrl) (w, st0)) as [(_ & _ & Hlen) _].
  { repeat split; simpl; [apply NoDup_nil_2 | intros x Hx | lia].
    now apply elem_of_nil in Hx. }
  pose proof (discover_loop_invariant_world P baseUrl _
                (fun s Hs _ => discover_step_requests P baseUrl w s Hs) (w, st0))
    as Hinv.
  cbv beta in Hinv.
  destruct Hinv as ((ks & Hks_len & Hks & Hreq) & Hp & He).
  { split; [|auto]. exists []. simpl. rewrite app_nil_r. auto. }
  split; [exists ks; auto|].
  split; [|auto].
  rewrite Hreq, length_app.
  pose proof (length_concat_replicate ks
                (discoveredUrls (discover_loop P baseUrl (w, st0)).2) Hks).
  lia.
Qed.

Lemma discoverUrls_requests_witness :
  exists ks,
    length ks = 2
    /\ Forall (fun k => 1 <= k <= 2) ks
    /\ [Demo.home; "https://example.com/a"; "https://example.com/a"]
       = [] ++ concat (zip_with replicate ks [Demo.home; "https://example.com/a"]).
Proof.
  destruct (discoverUrls_requests Demo.platform Demo.home Demo.start
              {| requests := [Demo.home; "https://example.com/a";
                              "https://example.com/a"];
                 entropy := 0; pages := ∅; delivered := [] |}
              [Demo.home; "https://example.com/a"]) as [Hks _].
  - vm_compute. reflexivity.
  - exact Hks.
Defined.

Section LinklessSeed.

Context (P : Platform).

Lemma not_blocked (h : string) :
  (forall domain, domain ∈ blockedDomains -> ~ substring_of domain h) ->
  existsb (fun domain => Js.includes h domain) blockedDomains = false.
Proof.
  intros Hfree. destruct (existsb _ _) eqn:Hblocked; [|reflexivity].
  apply existsb_exists in Hblocked as (domain & Hin & Hinc). exfalso.
  apply (Hfree domain); [now apply list_elem_of_In | now apply includes_inv].
Qed.

Lemma omap_none {A B} (f : A -> option B) (l : list A) :
  (forall x, x ∈ l -> f x = None) -> omap f l = [].
Proof.
  induction l as [|x l IH]; intros H; [reflexivity|].
  simpl. rewrite (H x) by apply list_elem_of_here.
  apply IH. intros y Hy. apply H. now apply list_elem_of_further.
Qed.

Lemma discoverUrls_linkless (startUrl : string) (baseUrl : URL.t) (w : World) :
  new_URL P startUrl = Returned baseUrl ->
  (forall domain, domain ∈ blockedDomains ->
                  ~ substring_of domain (URL.hostname baseUrl)) ->
  yields_no_link P baseUrl startUrl
    (mark_discovered startUrl []
       {| visitedUrls := ∅; urlsToVisit := [startUrl]; discoveredUrls := [] |})
    w ->
  discoverUrls P startUrl w
  = ((fetchWithRetry P startUrl 2 w).1, Returned [startUrl]).
Proof.
  intros Hurl Hfree Hnone.
  unfold discoverUrls, bind, lift, throw. rewrite Hurl, (not_blocked _ Hfree).
  set (st0 := {| visitedUrls := ∅; urlsToVisit := [startUrl];
                 discoveredUrls := [] |}) in *.
  rewrite discover_loop_eq. change (loop_guard (w, st0).2) with true.
  cbv iota. change (w, st0).2 with st0. change (w, st0).1 with w.
  rewrite (discover_step_new P baseUrl st0 startUrl [] w eq_refl
             (not_elem_of_empty _)).
  pose proof (scan_page_cases P baseUrl startUrl
                (mark_discovered startUrl [] st0) w) as Hscan.
  cbv zeta in Hscan. unfold yields_no_link in Hnone.
  destruct (fetchWithRetry P startUrl 2 w) as [w1 [response|e]];
    cbn [fst snd] in *;
    [|rewrite Hscan, discover_loop_eq; reflexivity].
  destruct (ok response) eqn:Hok;
    [|rewrite Hscan, discover_loop_eq; reflexivity].
  destruct (text response) as [html|e] eqn:Htext;
    [|rewrite Hscan, discover_loop_eq; reflexivity].
  destruct (cheerio_load P html) as [doc|e] eqn:Hdoc;
    [|rewrite Hscan, discover_loop_eq; reflexivity].
  rewrite Hscan, omap_none by (apply (Hnone response html doc); auto).
  rewrite discover_loop_eq. reflexivity.
Qed.

End LinklessSeed.

(** X7: a seed that is not deny-listed and whose page cannot be fetched or
    parsed, or has no link that passes the filter, is still discovered and
    crawled: [discoverUrls] returns the seed alone, and a callback that
    returns normally on every event receives the initial progress event,
    the progress event of the seed, one page event for the seed and the
    complete event with total 1. *)
Theorem crawlWebsite_linkless_seed
    (P : Platform) (startUrl : string) (baseUrl : URL.t)
    (callback : ProgressCallback) (w : World) :
  new_URL P startUrl = Returned baseUrl ->
  (forall domain, domain ∈ blockedDomains ->
                  ~ substring_of domain (URL.hostname baseUrl)) ->
  yields_no_link P baseUrl startUrl
    (mark_discovered startUrl []
       {| visitedUrls := ∅; urlsToVisit := [startUrl]; discoveredUrls := [] |})
    w ->
  quiet callback ->
  discoverUrls P startUrl w
  = ((fetchWithRetry P startUrl 2 w).1, Returned [startUrl])
  /\ exists page,
       Page.url page = startUrl
       /\ delivered (crawlWebsite P startUrl callback w).1
          = delivered w
            ++ [EvProgress {| total := 1; completed := 0; current := startUrl |};
                EvProgress {| total := 1; completed := 0; current := startUrl |};
                EvPage page;
                EvComplete 1].
Proof.
  intros Hurl Hfree Hnone Hquiet.
  pose proof (discoverUrls_linkless P startUrl baseUrl w Hurl Hfree Hnone) as Hdisc.
  split; [exact Hdisc|].
  pose proof (discoverUrls_delivered P startUrl w) as Hd0.
  rewrite Hdisc in Hd0. cbn [fst] in Hd0.
  unfold crawlWebsite, try_catch. unfold bind at 1. rewrite Hdisc.
  change (length [startUrl] =? 0) with false. cbv iota.
  unfold bind at 1, onProgress at 1. rewrite Hquiet.
  set (w1 := {| requests := _; entropy := _; pages := _; delivered := _ |}).
  destruct (crawl_each_events P callback (length [startUrl]) [startUrl]
              Hquiet 0 w1)
    as (records & w2 & Hrun & Hall & Hd2).
  unfold bind at 1. rewrite Hrun. unfold onProgress. rewrite Hquiet.
  cbn [fst delivered].
  apply Forall2_cons_inv_l in Hall as (page & rest & Hpage & Hrest & ->).
  apply Forall2_nil_inv_l in Hrest as ->.
  exists page. split; [exact Hpage|].
  rewrite Hd2. subst w1. cbn [delivered page_events length].
  rewrite Hd0, <- !app_assoc. reflexivity.
Qed.

Lemma crawlWebsite_linkless_seed_witness :
  discoverUrls Demo.platform "https://example.com/a" Demo.start
  = ((fetchWithRetry Demo.platform "https://example.com/a" 2 Demo.start).1,
     Returned ["https://example.com/a"])
  /\ exists page,
       Page.url page = "https://example.com/a"
       /\ delivered (crawlWebsite Demo.platform "https://example.com/a"
                       Demo.sink Demo.start).1
          = delivered Demo.start
            ++ [EvProgress {| total := 1; completed := 0;
                              current := "https://example.com/a" |};
                EvProgress {| total := 1; completed := 0;
                              current := "https://example.com/a" |};
                EvPage page;
                EvComplete 1].
Proof.
  apply (crawlWebsite_linkless_seed Demo.platform "https://example.com/a"
           {| URL.protocol := "https:"; URL.host := "example.com";
              URL.hostname := "example.com";
              URL.href := "https://example.com/a" |} Demo.sink Demo.start).
  - reflexivity.
  - intros domain Hin Hsub. apply includes_substring_of in Hsub.
    repeat (apply elem_of_cons in Hin as [->|Hin];
            [vm_compute in Hsub; discriminate|]).
    now apply elem_of_nil in Hin.
  - intros response html doc Hfetch. vm_compute in Hfetch. discriminate.
  - intros history data. reflexivity.
Defined.

Section Extensions.

Lemma toLower_app (a b : string) :
  Js.toLower (a +:+ b) = Js.toLower a +:+ Js.toLower b.
Proof.
  induction a as [|c a IH]; [reflexivity|].
  rewrite app_cons. simpl. rewrite IH. reflexivity.
Qed.

(** The extension test ignores the case of the letters. *)
Lemma matches_non_html_ext (stem ext : string) :
  Js.toLower ext ∈ non_html_extensions ->
  matches_non_html (stem +:+ "." +:+ ext) = true.
Proof.
  intros Hin. unfold matches_non_html. apply existsb_exists.
  exists (Js.toLower ext). split; [now apply list_elem_of_In|].
  rewrite !toLower_app. apply endsWith_app.
Qed.

End Extensions.

(** X8: a URL that ends in a dot and one of the seventeen non-HTML
    extensions, in any mix of upper and lower case, is never returned by
    [discoverUrls], unless it is the seed itself. *)
Theorem discoverUrls_skips_documents
    (P : Platform) (startUrl : string) (w w' : World) (urls : list string)
    (stem ext : string) :
  discoverUrls P startUrl w = (w', Returned urls) ->
  Js.toLower ext ∈ ["pdf"; "jpg"; "jpeg"; "png"; "gif"; "zip"; "exe"; "doc";
                    "docx"; "xls"; "xlsx"; "ppt"; "pptx"; "mp4"; "mp3"; "avi";
                    "mov"] ->
  stem +:+ "." +:+ ext ∈ urls ->
  stem +:+ "." +:+ ext = startUrl.
Proof.
  intros Hrun Hext Hin.
  destruct (discoverUrls_filtered P startUrl w w' urls Hrun)
    as (baseUrl & _ & Hall).
  rewrite Forall_forall in Hall.
  destruct (Hall _ Hin) as [Hseed|(_ & _ & Hno & _)]; [exact Hseed|].
  rewrite (matches_non_html_ext stem ext Hext) in Hno. discriminate.
Qed.

Lemma discoverUrls_skips_documents_witness :
  "https://example.com/report" +:+ "." +:+ "PDF" = "https://example.com/report.PDF".
Proof.
  apply (discoverUrls_skips_documents Demo.platform
           "https://example.com/report.PDF" Demo.start
           {| requests := ["https://example.com/report.PDF";
                           "https://example.com/report.PDF"];
              entropy := 0; pages := ∅; delivered := [] |}
           ["https://example.com/report.PDF"]
           "https://example.com/report" "PDF").
  - vm_compute. reflexivity.
  - vm_compute. apply list_elem_of_here.
  - apply list_elem_of_here.
Defined.

(** ** PageCrawler and CrawlOrchestrator: effects on the world *)

Section CrawlEffects.

Context (P : Platform).

Lemma strlen_substring_le (n : nat) (s : string) :
  strlen (String.substring 0 n s) <= n.
Proof.
  revert s; induction n as [|n IH]; intros [|c s]; simpl; try lia.
  specialize (IH s). lia.
Qed.

Lemma resolve_title_nonempty (doc : Document P) : resolve_title P doc <> "".
Proof.
  unfold resolve_title.
  repeat match goal with
         | |- context [String.eqb ?t ""] =>
             let E := fresh "E" in
             destruct (String.eqb t "") eqn:E;
             [|try (apply String.eqb_neq in E; exact E)]
         end; discriminate.
Qed.

(** Everything a call of [crawlSinglePage] does to the world. *)
Lemma crawlSinglePage_effects (url : string) (w : World) :
  exists page w' k,
    crawlSinglePage P url w = (w', Returned page)
    /\ Page.url page = url
    /\ Page.id page = random_id P (entropy w)
    /\ pages w' = <[Page.id page := page]> (pages w)
    /\ entropy w' = S (S (entropy w))
    /\ delivered w' = delivered w
    /\ requests w' = requests w ++ replicate k url
    /\ 1 <= k <= 3
    /\ (Page.title page = "Error"
        \/ exists doc, Page.title page = Js.substring (resolve_title P doc) 0 200).
Proof.
  unfold crawlSinglePage, crawl_attempt, bind, try_catch, lift, ret, throw.
  unfold generateId. cbn [fst].
  set (w0 := {| requests := requests w; entropy := S (entropy w);
                pages := pages w; delivered := delivered w |}).
  destruct (fetchWithRetry_frame P url 3 w0) as (He & Hp & Hd).
  destruct (fetchWithRetry_requests P url 3 w0) as (k & Hk3 & Hk1 & Hreq).
  destruct (fetchWithRetry P url 3 w0) as [w1 [response|e]];
    cbn [fst snd requests entropy pages delivered] in *.
  2: { eexists _, _, k. split; [reflexivity|]. cbn.
       rewrite He, Hp, Hd, Hreq. repeat split; eauto; lia. }
  destruct (ok response); cbn [negb].
  2: { eexists _, _, k. split; [reflexivity|]. cbn.
       rewrite He, Hp, Hd, Hreq. repeat split; eauto; lia. }
  destruct (text response) as [html|e].
  2: { eexists _, _, k. split; [reflexivity|]. cbn.
       rewrite He, Hp, Hd, Hreq. repeat split; eauto; lia. }
  destruct (cheerio_load P html) as [doc|e].
  2: { eexists _, _, k. split; [reflexivity|]. cbn.
       rewrite He, Hp, Hd, Hreq. repeat split; eauto; lia. }
  destruct (extractMainContent P doc) as [content|e].
  2: { eexists _, _, k. split; [reflexivity|]. cbn.
       rewrite He, Hp, Hd, Hreq. repeat split; eauto; lia. }
  eexists _, _, k. split; [reflexivity|]. cbn.
  rewrite He, Hp, Hd, Hreq. repeat split; eauto; lia.
Qed.

(** Everything the page loop does to the world when the callback never
    throws. *)
Lemma crawl_each_run (callback : ProgressCallback) (totalPages : nat)
    (urls : list string) :
  quiet callback ->
  forall (done : nat) (w : World),
  exists records w',
    crawl_each P callback totalPages urls done w
    = (w', Returned (done + length urls))
    /\ Forall2 (fun url page => Page.url page = url) urls records
    /\ delivered w' = delivered w ++ page_events totalPages done urls records
    /\ entropy w <= entropy w'
    /\ length (requests w') <= length (requests w) + 3 * length urls
    /\ (forall id kept,
          pages w !! id = Some kept ->
          (forall n, entropy w <= n -> random_id P n <> id) ->
          pages w' !! id = Some kept)
    /\ Forall (fun page => exists n, entropy w <= n
                                     /\ Page.id page = random_id P n) records
    /\ ((forall m n, random_id P m = random_id P n -> m = n) ->
        Forall (fun page => pages w' !! Page.id page = Some page) records
        /\ NoDup (map Page.id records)).
Proof.
  intros Hquiet.
  induction urls as [|url rest IH]; intros done w.
  - exists [], w. simpl. rewrite Nat.add_0_r, app_nil_r.
    repeat split; auto; try lia; constructor.
  - simpl. unfold bind at 1. unfold onProgress at 1. rewrite Hquiet.
    set (w1 := {| requests := requests w; entropy := entropy w;
                  pages := pages w;
                  delivered := delivered w ++ [_] |}).
    destruct (crawlSinglePage_effects url w1)
      as (page & w2 & k & Hrun & Hurl & Hid & Hp2 & He2 & Hd2 & Hr2 & Hk & _).
    unfold bind at 1, try_catch. unfold bind at 1. rewrite Hrun.
    unfold bind at 1, onProgress at 1, ret at 1. rewrite Hquiet.
    set (w3 := {| requests := requests w2; entropy := entropy w2;
                  pages := pages w2;
                  delivered := delivered w2 ++ [EvPage page] |}).
    destruct (IH (S done) w3)
      as (records & w' & Hrest & Hall & Hd & He & Hr & Hkeep & Hids & Hstored).
    subst w3 w1. cbn [requests entropy pages delivered] in *.
    exists (page :: records), w'. rewrite Hrest.
    split; [f_equal; f_equal; lia|].
    split; [constructor; assumption|].
    split; [rewrite Hd, Hd2; cbn [page_events]; rewrite <- !app_assoc;
            reflexivity|].
    split; [lia|].
    split; [rewrite Hr2, length_app, length_replicate in Hr; simpl; lia|].
    split.
    + intros id kept Hin Hfresh. apply Hkeep.
      * rewrite Hp2, lookup_insert_ne; [exact Hin|].
        rewrite Hid. apply Hfresh. lia.
      * intros n Hn. apply Hfresh. lia.
    + split.
      * constructor; [exists (entropy w); split; [lia | exact Hid]|].
        eapply Forall_impl; [exact Hids|].
        intros q (n & Hn & Hq). exists n. split; [lia | exact Hq].
      * intros Hinj. destruct (Hstored Hinj) as [Hst Hnd]. split.
        -- constructor; [|exact Hst].
           apply Hkeep.
           ++ rewrite Hp2. apply lookup_insert_eq.
           ++ intros n Hn Heq. rewrite Hid in Heq. apply Hinj in Heq. lia.
        -- simpl. apply NoDup_cons. split; [|exact Hnd].
           intros Hin. apply list_elem_of_fmap in Hin as (q & Hq & Hqin).
           rewrite Forall_forall in Hids.
           destruct (Hids q Hqin) as (n & Hn & Hqid).
           rewrite Hid, Hqid in Hq. apply Hinj in Hq. lia.
Qed.

Lemma page_events_pages (totalPages : nat) (urls : list string)
    (records : list Page.t) (page : Page.t) :
  forall done,
    EvPage page ∈ page_events totalPages done urls records -> page ∈ records.
Proof.
  revert records; induction urls as [|url urls IH]; intros [|r records] done;
    simpl; intros Hin; try (now apply elem_of_nil in Hin).
  apply elem_of_cons in Hin as [Hin|Hin]; [discriminate|].
  apply elem_of_cons in Hin as [Hin|Hin].
  - injection Hin as ->. apply list_elem_of_here.
  - apply list_elem_of_further. eapply IH. exact Hin.
Qed.

(** The whole run with a callback that never throws, in terms of the run
    of discovery. *)
Lemma crawlWebsite_run (startUrl : string) (callback : ProgressCallback)
    (w : World) :
  quiet callback ->
  (crawlWebsite P startUrl callback w).2 = Returned tt
  /\ match discoverUrls P startUrl w with
     | (w0, Threw e) =>
         (crawlWebsite P startUrl callback w).1
         = {| requests := requests w0; entropy := entropy w0;
              pages := pages w0;
              delivered := delivered w0 ++ [EvError (message_of e)] |}
     | (w0, Returned urls) =>
         exists records,
           Forall2 (fun url page => Page.url page = url) urls records
           /\ delivered (crawlWebsite P startUrl callback w).1
              = delivered w0
                ++ EvProgress {| total := length urls; completed := 0;
                                 current := startUrl |}
                   :: page_events (length urls) 0 urls records
                ++ [EvComplete (length urls)]
           /\ length (requests (crawlWebsite P startUrl callback w).1)
              <= length (requests w0) + 3 * length urls
           /\ ((forall m n, random_id P m = random_id P n -> m = n) ->
               Forall (fun page =>
                         pages (crawlWebsite P startUrl callback w).1
                         !! Page.id page
                         = Some page) records
               /\ NoDup (map Page.id records))
     end.
Proof.
  intros Hquiet.
  destruct (discoverUrls P startUrl w) as [w0 [urls|e]] eqn:Hdisc.
  2: { assert (E : crawlWebsite P startUrl callback w
                   = onProgress callback (EvError (message_of e)) w0)
         by (unfold crawlWebsite, try_catch; unfold bind at 1;
             rewrite Hdisc; reflexivity).
       rewrite E. unfold onProgress. rewrite Hquiet. split; reflexivity. }
  pose proof (discoverUrls_seed_first P startUrl w w0 urls Hdisc) as Hhead.
  set (w1 := {| requests := requests w0; entropy := entropy w0;
                pages := pages w0;
                delivered := delivered w0
                             ++ [EvProgress {| total := length urls;
                                               completed := 0;
                                               current := startUrl |}] |}).
  destruct (crawl_each_run callback (length urls) urls Hquiet 0 w1)
    as (records & w2 & Hrun & Hall & Hd2 & _ & Hr2 & _ & _ & Hstored).
  assert (E : crawlWebsite P startUrl callback w
              = ({| requests := requests w2; entropy := entropy w2;
                    pages := pages w2;
                    delivered := delivered w2 ++ [EvComplete (length urls)] |},
                 Returned tt)).
  { unfold crawlWebsite, try_catch. unfold bind at 1. rewrite Hdisc.
    destruct urls as [|first rest]; [discriminate|].
    change (length (first :: rest) =? 0) with false. cbv iota.
    unfold bind at 1, onProgress at 1. rewrite Hquiet. fold w1.
    unfold bind at 1. rewrite Hrun. unfold onProgress. rewrite Hquiet.
    reflexivity. }
  rewrite E. cbn [fst snd requests pages delivered].
  split; [reflexivity|].
  exists records. split; [exact Hall|].
  subst w1. cbn [delivered requests] in *.
  split; [rewrite Hd2, <- !app_assoc; reflexivity|].
  split; [exact Hr2 | exact Hstored].
Qed.

(** *** Any callback: stretches of a run *)

Lemma stretch_refl (w : World) : stretch P 0 w w.
Proof.
  split; [lia|]. split; [lia|]. split; [auto|].
  exists []. rewrite app_nil_r. split; [reflexivity | constructor].
Qed.

Lemma stretch_weaken (b b' : nat) (w w' : World) :
  b <= b' -> stretch P b w w' -> stretch P b' w w'.
Proof.
  intros Hb (He & Hr & Hkeep & Hev).
  split; [exact He|]. split; [lia|]. split; assumption.
Qed.

Lemma stretch_trans (b1 b2 : nat) (w w1 w2 : World) :
  stretch P b1 w w1 -> stretch P b2 w1 w2 -> stretch P (b1 + b2) w w2.
Proof.
  intros (He1 & Hr1 & Hk1 & evs1 & Hd1 & Hok1)
         (He2 & Hr2 & Hk2 & evs2 & Hd2 & Hok2).
  split; [lia|]. split; [lia|]. split.
  - intros id kept Hin Hfresh.
    apply Hk2; [apply Hk1; [exact Hin|]|]; intros n Hn; apply Hfresh; lia.
  - exists (evs1 ++ evs2).
    split; [rewrite Hd2, Hd1, app_assoc; reflexivity|].
    apply Forall_app. split.
    + eapply Forall_impl; [exact Hok1|].
      intros [progress|page|total|error]; simpl; auto.
      intros ((n & Hn & Hid) & Hstored).
      split; [exists n; split; [lia | exact Hid]|].
      intros Hinj. apply Hk2; [auto|].
      intros m Hm Heq. rewrite Hid in Heq. apply Hinj in Heq. lia.
    + eapply Forall_impl; [exact Hok2|].
      intros [progress|page|total|error]; simpl; auto.
      intros ((n & Hn & Hid) & Hstored).
      split; [exists n; split; [lia | exact Hid] | exact Hstored].
Qed.

(** A call of the callback at the end of a stretch. *)
Lemma stretch_event (callback : ProgressCallback) (data : Event) (b : nat)
    (w w1 : World) :
  stretch P b w w1 ->
  page_event_ok P w w1 data ->
  stretch P b w (onProgress callback data w1).1.
Proof.
  intros (He & Hr & Hk & evs & Hd & Hok) Hdata.
  split; [exact He|]. split; [exact Hr|]. split; [exact Hk|].
  exists (evs ++ [data]). cbn [onProgress fst delivered].
  split; [rewrite Hd, app_assoc; reflexivity|].
  apply Forall_app. split; [exact Hok | constructor; [exact Hdata | constructor]].
Qed.

Lemma crawlSinglePage_stretch (url : string) (w : World) :
  exists page w',
    crawlSinglePage P url w = (w', Returned page)
    /\ stretch P 3 w w'
    /\ page_event_ok P w w' (EvPage page).
Proof.
  destruct (crawlSinglePage_effects url w)
    as (page & w' & k & Hrun & _ & Hid & Hp & He & Hd & Hr & Hk & _).
  exists page, w'. split; [exact Hrun|]. split.
  - split; [lia|].
    split; [rewrite Hr, length_app, length_replicate; lia|]. split.
    + intros id kept Hin Hfresh. rewrite Hp, lookup_insert_ne; [exact Hin|].
      rewrite Hid. apply Hfresh. lia.
    + exists []. rewrite app_nil_r. split; [exact Hd | constructor].
  - split; [exists (entropy w); split; [lia | exact Hid]|].
    intros _. rewrite Hp. apply lookup_insert_eq.
Qed.

(** One turn of the page loop, for any callback: the progress event; the
    crawl of the page and its page event; and, when the callback throws on
    that event, the [catch] clause: a second record for the same URL, with
    an id of its own and the callback's error as its message, stored and
    delivered. *)
Lemma crawl_each_cons (callback : ProgressCallback) (totalPages : nat)
    (url : string) (rest : list string) (done : nat) (w : World) :
  let progress :=
    EvProgress {| total := totalPages; completed := done; current := url |} in
  let w1 := {| requests := requests w; entropy := entropy w; pages := pages w;
               delivered := delivered w ++ [progress] |} in
  exists page w2,
    crawlSinglePage P url w1 = (w2, Returned page)
    /\ crawl_each P callback totalPages (url :: rest) done w
       = match callback (delivered w) progress with
         | Threw e => (w1, Threw e)
         | Returned _ =>
             match callback (delivered w2) (EvPage page) with
             | Returned _ =>
                 crawl_each P callback totalPages rest (S done)
                   {| requests := requests w2; entropy := entropy w2;
                      pages := pages w2;
                      delivered := delivered w2 ++ [EvPage page] |}
             | Threw e =>
                 let errorPage :=
                   error_page (random_id P (entropy w2)) url e
                     (iso_time P (S (entropy w2))) in
                 let w3 :=
                   {| requests := requests w2; entropy := S (S (entropy w2));
                      pages := <[Page.id errorPage := errorPage]> (pages w2);
                      delivered := (delivered w2 ++ [EvPage page])
                                   ++ [EvPage errorPage] |} in
                 match callback (delivered w2 ++ [EvPage page])
                         (EvPage errorPage) with
                 | Returned _ =>
                     crawl_each P callback totalPages rest (S done) w3
                 | Threw e' => (w3, Threw e')
                 end
             end
         end.
Proof.
  intros progress w1.
  destruct (crawlSinglePage_effects url w1) as (page & w2 & k & Hrun & _).
  exists page, w2. split; [exact Hrun|].
  cbn [crawl_each]. unfold bind at 1. unfold onProgress at 1.
  fold progress. fold w1.
  destruct (callback (delivered w) progress) as [[]|e]; [|reflexivity].
  unfold bind at 1, try_catch. unfold bind at 1. rewrite Hrun.
  unfold bind at 1, onProgress at 1.
  destruct (callback (delivered w2) (EvPage page)) as [[]|e]; [reflexivity|].
  unfold bind, generateId, toISOString_now, storePage, onProgress, ret.
  cbn [requests entropy pages delivered].
  destruct (callback _ _) as [[]|e']; reflexivity.
Qed.

Lemma crawl_each_stretch (callback : ProgressCallback) (totalPages : nat)
    (urls : list string) :
  forall (done : nat) (w : World),
    stretch P (3 * length urls) w
      (crawl_each P callback totalPages urls done w).1.
Proof.
  induction urls as [|url rest IH]; intros done w; [apply stretch_refl|].
  pose proof (crawl_each_cons callback totalPages url rest done w) as H.
  cbv zeta in H. destruct H as (page & w2 & Hrun & ->).
  set (progress := EvProgress _) in *.
  pose proof (stretch_event callback progress 0 w w (stretch_refl w) I) as Hs1.
  cbn [onProgress fst] in Hs1.
  set (w1 := {| requests := requests w; entropy := _; pages := _;
                delivered := _ |}) in *.
  destruct (callback (delivered w) progress) as [[]|e]; cbn [fst];
    [|apply (stretch_weaken 0); [lia | exact Hs1]].
  destruct (crawlSinglePage_stretch url w1)
    as (page' & w2' & Hrun' & Hs2 & Hok2).
  rewrite Hrun in Hrun'. injection Hrun' as <- <-.
  pose proof (stretch_event callback (EvPage page) 3 w1 w2 Hs2 Hok2) as Hs3.
  cbn [onProgress fst] in Hs3.
  set (w3 := {| requests := requests w2; entropy := entropy w2;
                pages := pages w2;
                delivered := delivered w2 ++ [EvPage page] |}) in *.
  destruct (callback (delivered w2) (EvPage page)) as [[]|e].
  { apply (stretch_weaken (0 + (3 + 3 * length rest))); [simpl; lia|].
    eapply stretch_trans; [exact Hs1|].
    eapply stretch_trans; [exact Hs3 | apply IH]. }
  cbv zeta.
  set (errorPage := error_page _ _ _ _).
  set (w5 := {| requests := requests w2; entropy := S (S (entropy w2));
                pages := _; delivered := _ |}).
  assert (Hs5 : stretch P 0 w3 w5).
  { subst w3 w5. cbn [requests entropy pages delivered].
    split; [cbn; lia|]. split; [cbn; lia|]. split.
    - cbn [requests entropy pages delivered].
      intros id kept Hin Hfresh. rewrite lookup_insert_ne; [exact Hin|].
      apply Hfresh. lia.
    - exists [EvPage errorPage]. split; [reflexivity|].
      constructor; [|constructor]. split.
      + exists (entropy w2). cbn. split; [lia | reflexivity].
      + intros _. cbn [pages]. apply lookup_insert_eq. }
  destruct (callback _ (EvPage errorPage)) as [[]|e']; cbn [fst].
  - apply (stretch_weaken (0 + (3 + (0 + 3 * length rest)))); [simpl; lia|].
    eapply stretch_trans; [exact Hs1|].
    eapply stretch_trans; [exact Hs3|].
    eapply stretch_trans; [exact Hs5 | apply IH].
  - apply (stretch_weaken (0 + (3 + 0))); [simpl; lia|].
    eapply stretch_trans; [exact Hs1|].
    eapply stretch_trans; [exact Hs3 | exact Hs5].
Qed.

(** The outer [catch]: the error event is delivered where the body
    stopped. *)
Lemma stretch_catch (callback : ProgressCallback) (b : nat) (w : World)
    (body : M unit) :
  stretch P b w (body w).1 ->
  stretch P b w
    (try_catch body
       (fun error => onProgress callback (EvError (message_of error))) w).1.
Proof.
  unfold try_catch. destruct (body w) as [w' [a|e]]; cbn [fst]; intros H;
    [exact H | apply stretch_event; [exact H | exact I]].
Qed.

(** A whole run, for any callback. *)
Lemma crawlWebsite_stretch (startUrl : string) (callback : ProgressCallback)
    (w : World) :
  stretch P 250 w (crawlWebsite P startUrl callback w).1.
Proof.
  destruct (discoverUrls_frame P startUrl w) as (Hr & Hp & He & Hd & Hlen).
  assert (Hs0 : stretch P 100 w (discoverUrls P startUrl w).1).
  { split; [lia|]. split; [exact Hr|].
    split; [intros id kept Hin _; rewrite Hp; exact Hin|].
    exists []. rewrite app_nil_r. split; [exact Hd | constructor]. }
  unfold crawlWebsite. apply stretch_catch. unfold bind at 1.
  destruct (discoverUrls P startUrl w) as [w0 [urls|e]]; cbn [fst snd] in *;
    [|apply (stretch_weaken 100); [lia | exact Hs0]].
  specialize (Hlen urls eq_refl).
  destruct (length urls =? 0);
    [apply (stretch_weaken 100); [lia | exact Hs0]|].
  unfold bind at 1.
  set (progress := EvProgress _).
  pose proof (stretch_event callback progress 100 w w0 Hs0 I) as Hs1.
  destruct (onProgress callback progress w0) as [w1 [[]|e]]; cbn [fst] in *;
    [|apply (stretch_weaken 100); [lia | exact Hs1]].
  unfold bind at 1.
  pose proof (crawl_each_stretch callback (length urls) urls 0 w1) as Hs2.
  destruct (crawl_each P callback (length urls) urls 0 w1) as [w2 [n|e]];
    cbn [fst] in *.
  - apply stretch_event; [|exact I].
    apply (stretch_weaken (100 + 3 * length urls)); [lia|].
    eapply stretch_trans; eassumption.
  - apply (stretch_weaken (100 + 3 * length urls)); [lia|].
    eapply stretch_trans; eassumption.
Qed.

End CrawlEffects.

(** X9: the title of every record that [crawlSinglePage] returns is
    non-empty and at most 200 characters long. *)
Theorem crawlSinglePage_title
    (P : Platform) (url : string) (w w' : World) (page : Page.t) :
  crawlSinglePage P url w = (w', Returned page) ->
  Page.title page <> "" /\ strlen (Page.title page) <= 200.
Proof.
  intros Hrun.
  destruct (crawlSinglePage_effects P url w)
    as (page' & w'' & k & Hrun' & _ & _ & _ & _ & _ & _ & _ & Htitle).
  rewrite Hrun in Hrun'. injection Hrun' as _ <-.
  destruct Htitle as [->|[doc ->]].
  - split; [discriminate | simpl; lia].
  - unfold Js.substring. simpl Nat.min. simpl Nat.max.
    rewrite Nat.sub_0_r. split; [|apply strlen_substring_le].
    pose proof (resolve_title_nonempty P doc) as Hne.
    destruct (resolve_title P doc); [congruence | discriminate].
Qed.

Lemma crawlSinglePage_title_witness :
  exists page w',
    crawlSinglePage Demo.platform Demo.home Demo.start = (w', Returned page)
    /\ Page.title page = "Untitled Page"
    /\ Page.title page <> "" /\ strlen (Page.title page) <= 200.
Proof.
  destruct (crawlSinglePage Demo.platform Demo.home Demo.start)
    as [w' [page|e]] eqn:Hrun; [|vm_compute in Hrun; discriminate].
  pose proof (crawlSinglePage_title Demo.platform Demo.home Demo.start w' page Hrun)
    as Htitle.
  exists page, w'. split; [reflexivity|]. split; [|exact Htitle].
  vm_compute in Hrun. injection Hrun as _ <-. reflexivity.
Defined.

(** X10: a call of [crawlSinglePage] sends one to three requests, all for
    its URL, stores the record it returns under the generated id, so that
    the store holds that very record under its id afterwards, leaves every
    other stored record as it was, and delivers no event. *)
Theorem crawlSinglePage_touches_only_its_record
    (P : Platform) (url : string) (w w' : World) (page : Page.t) :
  crawlSinglePage P url w = (w', Returned page) ->
  Page.id page = random_id P (entropy w)
  /\ pages w' !! Page.id page = Some page
  /\ (forall id, id <> Page.id page -> pages w' !! id = pages w !! id)
  /\ (exists k, 1 <= k <= 3 /\ requests w' = requests w ++ replicate k url)
  /\ delivered w' = delivered w.
Proof.
  intros Hrun.
  destruct (crawlSinglePage_effects P url w)
    as (page' & w'' & k & Hrun' & _ & Hid & Hp & _ & Hd & Hr & Hk & _).
  rewrite Hrun in Hrun'. injection Hrun' as <- <-.
  split; [exact Hid|].
  split; [rewrite Hp; apply lookup_insert_eq|]. split.
  - intros id Hne. rewrite Hp. now apply lookup_insert_ne.
  - split; [exists k; auto | exact Hd].
Qed.

Lemma crawlSinglePage_touches_only_its_record_witness :
  exists page w',
    crawlSinglePage Demo.platform "https://example.com/a" Demo.start
    = (w', Returned page)
    /\ Page.id page = "id0"
    /\ pages w' !! "id0" = Some page
    /\ (exists k, 1 <= k <= 3
                  /\ requests w' = [] ++ replicate k "https://example.com/a").
Proof.
  destruct (crawlSinglePage Demo.platform "https://example.com/a" Demo.start)
    as [w' [page|e]] eqn:Hrun; [|vm_compute in Hrun; discriminate].
  destruct (crawlSinglePage_touches_only_its_record Demo.platform
              "https://example.com/a" Demo.start w' page Hrun)
    as (Hid & Hstored & _ & Hreq & _).
  exists page, w'. split; [reflexivity|]. split; [exact Hid|].
  split; [|exact Hreq].
  change (Page.id page = "id0") in Hid. rewrite Hid in Hstored. exact Hstored.
Defined.

(** X11: whatever the platform does, and whether the callback returns or
    throws, a run of [crawlWebsite] sends at most 250 requests (at most
    two per discovered URL during discovery and at most three per URL
    when the pages are crawled), and it throws only what the callback
    throws when it is handed the error event: with a callback that takes
    every error event [crawlWebsite] returns normally. *)
Theorem crawlWebsite_requests_and_outcome
    (P : Platform) (startUrl : string) (callback : ProgressCallback)
    (w : World) :
  length (requests (crawlWebsite P startUrl callback w).1)
  <= length (requests w) + 250
  /\ (forall e,
        (crawlWebsite P startUrl callback w).2 = Threw e ->
        exists history message,
          callback history (EvError message) = Threw e
          /\ last (delivered (crawlWebsite P startUrl callback w).1)
             = Some (EvError message))
  /\ ((forall history message,
         callback history (EvError message) = Returned tt) ->
      (crawlWebsite P startUrl callback w).2 = Returned tt).
Proof.
  assert (Hthrows :
            forall e,
              (crawlWebsite P startUrl callback w).2 = Threw e ->
              exists history message,
                callback history (EvError message) = Threw e
                /\ last (delivered (crawlWebsite P startUrl callback w).1)
                   = Some (EvError message)).
  { unfold crawlWebsite, try_catch.
    destruct (bind _ _ w) as [w' [[]|error]]; cbn [fst snd];
      [discriminate|].
    unfold onProgress. cbn [fst snd delivered]. intros e He.
    exists (delivered w'), (message_of error).
    split; [exact He | apply last_snoc]. }
  split; [|split; [exact Hthrows|]].
  - destruct (crawlWebsite_stretch P startUrl callback w) as (_ & Hr & _).
    exact Hr.
  - intros Htakes.
    destruct (crawlWebsite P startUrl callback w) as [w' [[]|e]] eqn:Hrun;
      [reflexivity|].
    destruct (Hthrows e eq_refl) as (history & message & Hcall & _).
    rewrite Htakes in Hcall. discriminate.
Qed.

Lemma crawlWebsite_requests_and_outcome_witness :
  length (requests (crawlWebsite Demo.platform Demo.home Demo.closed
                      Demo.start).1) <= 250
  /\ (crawlWebsite Demo.platform Demo.home Demo.closed Demo.start).2
     = Threw (JsError "Controller is already closed")
  /\ (crawlWebsite Demo.platform Demo.home Demo.no_pages Demo.start).2
     = Returned tt.
Proof.
  destruct (crawlWebsite_requests_and_outcome Demo.platform Demo.home
              Demo.closed Demo.start) as (Hbound & _ & _).
  split; [exact Hbound|]. split; [vm_compute; reflexivity|].
  destruct (crawlWebsite_requests_and_outcome Demo.platform Demo.home
              Demo.no_pages Demo.start) as (_ & _ & Hreturns).
  apply Hreturns. intros history message. reflexivity.
Defined.


Lemma unary_id_inj (m n : nat) : Flaky.unary_id m = Flaky.unary_id n -> m = n.
Proof.
  assert (Hlen : forall k, strlen (Nat.iter k (String "i") "") = k).
  { induction k as [|k IH]; simpl; [reflexivity | now rewrite IH]. }
  intros H. apply (f_equal strlen) in H. unfold Flaky.unary_id in H.
  rewrite !Hlen in H. lia.
Qed.


Section BlockedSeed.

Context (P : Platform).

Lemma discoverUrls_blocked (startUrl : string) (baseUrl : URL.t)
    (domain : string) (w : World) :
  new_URL P startUrl = Returned baseUrl ->
  domain ∈ blockedDomains ->
  substring_of domain (URL.hostname baseUrl) ->
  discoverUrls P startUrl w
  = (w, Threw (JsError (blocked_domain_message (URL.hostname baseUrl)))).
Proof.
  intros Hurl Hin Hsub.
  unfold discoverUrls, bind, lift, throw. rewrite Hurl.
  replace (existsb _ blockedDomains) with true; [reflexivity|].
  symmetry. apply existsb_exists. exists domain. split.
  - apply list_elem_of_In. exact Hin.
  - apply includes_substring_of. exact Hsub.
Qed.

End BlockedSeed.

(** X13: for a seed whose hostname contains a deny-listed domain the
    whole run of [crawlWebsite] is one call of the callback, with the
    error event that carries the deny-list message: requests, store and
    clock are as before, and the run returns or throws as that call
    does. *)
Theorem crawlWebsite_blocked_seed
    (P : Platform) (startUrl : string) (baseUrl : URL.t) (domain : string)
    (callback : ProgressCallback) (w : World) :
  new_URL P startUrl = Returned baseUrl ->
  domain ∈ ["google.com"; "facebook.com"; "twitter.com"; "instagram.com";
            "linkedin.com"] ->
  substring_of domain (URL.hostname baseUrl) ->
  let refusal :=
    EvError ("The domain " +:+ URL.hostname baseUrl +:+
      " typically blocks automated crawling. Please try a different website like example.com, wikipedia.org, or your own website.") in
  crawlWebsite P startUrl callback w
  = ({| requests := requests w; entropy := entropy w; pages := pages w;
        delivered := delivered w ++ [refusal] |},
     callback (delivered w) refusal).
Proof.
  intros Hurl Hin Hsub refusal.
  unfold crawlWebsite, try_catch. unfold bind at 1.
  rewrite (discoverUrls_blocked P startUrl baseUrl domain w Hurl Hin Hsub).
  reflexivity.
Qed.

Lemma crawlWebsite_blocked_seed_witness :
  crawlWebsite Demo.platform "https://m.facebook.com/" Demo.closed Demo.start
  = ({| requests := []; entropy := 0; pages := ∅;
        delivered :=
          [EvError "The domain m.facebook.com typically blocks automated crawling. Please try a different website like example.com, wikipedia.org, or your own website."] |},
     Threw (JsError "Controller is already closed")).
Proof.
  apply (crawlWebsite_blocked_seed Demo.platform "https://m.facebook.com/"
           {| URL.protocol := "https:"; URL.host := "m.facebook.com";
              URL.hostname := "m.facebook.com";
              URL.href := "https://m.facebook.com/" |}
           "facebook.com" Demo.closed Demo.start).
  - reflexivity.
  - apply list_elem_of_further, list_elem_of_here.
  - exists "m.", "". reflexivity.
Defined.

(** X30: when the callback throws on the page event of a crawled URL, the
    [catch] clause of the page loop makes a second record for the same
    URL: status "error", title "Error", the message of what the callback
    threw, a newly generated id.  It stores that record, hands it to the
    callback in a second page event and, when that call returns, counts
    the URL once and goes on with the next URL; when that call throws too,
    the loop ends with what it threw.  The record that [crawlSinglePage]
    stored stays in the store. *)
Theorem crawl_each_callback_throws_on_page
    (P : Platform) (callback : ProgressCallback) (totalPages : nat)
    (url : string) (rest : list string) (done : nat) (w w2 : World)
    (page : Page.t) (e : Thrown) :
  let progress :=
    EvProgress {| total := totalPages; completed := done; current := url |} in
  callback (delivered w) progress = Returned tt ->
  crawlSinglePage P url
    {| requests := requests w; entropy := entropy w; pages := pages w;
       delivered := delivered w ++ [progress] |}
  = (w2, Returned page) ->
  callback (delivered w2) (EvPage page) = Threw e ->
  let errorPage :=
    {| Page.id := random_id P (entropy w2);
       Page.url := url;
       Page.title := "Error";
       Page.content := "";
       Page.status := Error;
       Page.error := Some (message_of e);
       Page.crawledAt := Some (iso_time P (S (entropy w2)));
       Page.wordCount := Some 0;
       Page.summary := None |} in
  let w3 :=
    {| requests := requests w2; entropy := S (S (entropy w2));
       pages := <[random_id P (entropy w2) := errorPage]> (pages w2);
       delivered := delivered w ++ [progress; EvPage page; EvPage errorPage] |} in
  crawl_each P callback totalPages (url :: rest) done w
  = match callback (delivered w ++ [progress; EvPage page]) (EvPage errorPage) with
    | Returned _ => crawl_each P callback totalPages rest (S done) w3
    | Threw e' => (w3, Threw e')
    end
  /\ (distinct_ids P -> pages w3 !! Page.id page = Some page).
Proof.
  intros progress Hprogress Hrun Hpage errorPage w3.
  pose proof (crawl_each_cons P callback totalPages url rest done w) as H.
  cbv zeta in H. fold progress in H.
  destruct H as (page' & w2' & Hrun' & Heq).
  rewrite Hrun in Hrun'. injection Hrun' as <- <-.
  rewrite Hprogress, Hpage in Heq.
  destruct (crawlSinglePage_effects P url
              {| requests := requests w; entropy := entropy w;
                 pages := pages w; delivered := delivered w ++ [progress] |})
    as (page' & w2' & k & Hrun' & _ & Hid & Hp & He & Hd & _).
  rewrite Hrun in Hrun'. injection Hrun' as <- <-.
  cbn [delivered entropy] in Hd, Hid, He.
  assert (Hw3 : {| requests := requests w2; entropy := S (S (entropy w2));
                   pages := <[random_id P (entropy w2) := errorPage]> (pages w2);
                   delivered := (delivered w2 ++ [EvPage page])
                                ++ [EvPage errorPage] |} = w3).
  { subst w3. f_equal. rewrite Hd, <- !app_assoc. reflexivity. }
  split.
  - rewrite Heq. cbv zeta.
    change (error_page (random_id P (entropy w2)) url e
              (iso_time P (S (entropy w2)))) with errorPage.
    change (Page.id errorPage) with (random_id P (entropy w2)).
    rewrite Hw3.
    replace (delivered w2 ++ [EvPage page])
      with (delivered w ++ [progress; EvPage page])
      by (rewrite Hd, <- app_assoc; reflexivity).
    reflexivity.
  - intros Hinj. subst w3. cbn [pages].
    rewrite lookup_insert_ne.
    + rewrite Hp. apply lookup_insert_eq.
    + rewrite Hid. intros Heq'. apply Hinj in Heq'. lia.
Qed.

Lemma crawl_each_callback_throws_on_page_witness :
  (crawl_each Flaky.platform Demo.once 1 ["https://example.com/x"] 0
     Demo.start).2
  = Returned 1
  /\ omap (fun data =>
             match data with
             | EvPage page => Some (Page.id page, Page.error page)
             | _ => None
             end)
       (delivered (crawl_each Flaky.platform Demo.once 1
                     ["https://example.com/x"] 0 Demo.start).1)
     = [("i", Some "HTTP 404: Not Found"); ("iii", Some "write EPIPE")].
Proof.
  destruct (crawlSinglePage Flaky.platform "https://example.com/x"
              {| requests := []; entropy := 0; pages := ∅;
                 delivered :=
                   [EvProgress {| total := 1; completed := 0;
                                  current := "https://example.com/x" |}] |})
    as [w2 [page|e0]] eqn:Hrun; [|vm_compute in Hrun; discriminate].
  assert (Hcall : Demo.once (delivered w2) (EvPage page)
                  = Threw (JsError "write EPIPE"))
    by (vm_compute in Hrun; injection Hrun as <- <-; reflexivity).
  destruct (crawl_each_callback_throws_on_page Flaky.platform Demo.once 1
              "https://example.com/x" [] 0 Demo.start w2 page
              (JsError "write EPIPE") eq_refl Hrun Hcall) as [Heq _].
  rewrite Heq. vm_compute in Hrun. injection Hrun as <- <-.
  split; vm_compute; reflexivity.
Defined.

(** ** Storage *)

(** X14: a stored record is what [getPageById] returns for its id, the
    records under other ids are not affected, and storing again under the
    same id replaces the record: the last write wins. *)
Theorem storePage_then_getPageById (page : Page.t) (w : World) :
  getPageById (Page.id page) (storePage page w).1
  = ((storePage page w).1, Returned (Some page))
  /\ (forall id, id <> Page.id page ->
        (getPageById id (storePage page w).1).2 = (getPageById id w).2)
  /\ (forall later, Page.id later = Page.id page ->
        storePage later (storePage page w).1 = storePage later w).
Proof.
  unfold getPageById, storePage. cbn [fst snd pages].
  split; [now rewrite lookup_insert_eq|]. split.
  - intros id Hne. rewrite lookup_insert_ne by congruence. reflexivity.
  - intros later Hid. cbn [requests entropy pages delivered].
    rewrite Hid, insert_insert_eq. reflexivity.
Qed.

(** X15: after [deletePage(id)] the lookup of [id] returns null and the
    other records are untouched; deleting an id that is not stored
    changes nothing; deleting a record just stored under a fresh id gives
    the store back; after [clearAllPages()] every lookup returns null. *)
Theorem deletePage_then_getPageById (id : string) (w : World) :
  getPageById id (deletePage id w).1 = ((deletePage id w).1, Returned None)
  /\ (forall other, other <> id ->
        (getPageById other (deletePage id w).1).2 = (getPageById other w).2)
  /\ (pages w !! id = None -> (deletePage id w).1 = w)
  /\ (forall page, Page.id page = id -> pages w !! id = None ->
        (deletePage id (storePage page w).1).1 = w)
  /\ (forall any, (getPageById any (clearAllPages w).1).2 = Returned None).
Proof.
  unfold getPageById, deletePage, storePage, clearAllPages.
  cbn [fst snd pages requests entropy delivered].
  split; [now rewrite lookup_delete_eq|]. split.
  { intros other Hne. rewrite lookup_delete_ne by congruence. reflexivity. }
  split.
  { intros Hnone. rewrite delete_id by exact Hnone. now destruct w. }
  split.
  { intros page <- Hnone. rewrite delete_insert_id by exact Hnone.
    now destruct w. }
  intros any. now rewrite lookup_empty.
Qed.


Section PageMapFacts.

Lemma PageMap_keys_set (key : string) (value : Page.t) (m : PageMap.t) :
  PageMap.keys (PageMap.set key value m)
  = if decide (key ∈ PageMap.keys m) then PageMap.keys m
    else PageMap.keys m ++ [key].
Proof.
  unfold PageMap.keys. induction m as [|[k v] rest IH]; [reflexivity|].
  simpl. destruct (String.eqb k key) eqn:E.
  - apply String.eqb_eq in E as ->. simpl.
    rewrite decide_True by apply list_elem_of_here. reflexivity.
  - apply String.eqb_neq in E. simpl. rewrite IH.
    destruct (decide (key ∈ map fst rest)) as [Hin|Hout].
    + rewrite decide_True by now apply list_elem_of_further. reflexivity.
    + rewrite decide_False; [reflexivity|].
      intros Hin. apply elem_of_cons in Hin as [->|Hin]; auto.
Qed.

Lemma PageMap_view_set (key : string) (value : Page.t) (m : PageMap.t) :
  PageMap.view (PageMap.set key value m) = <[key := value]> (PageMap.view m).
Proof.
  unfold PageMap.view. induction m as [|[k v] rest IH]; [reflexivity|].
  simpl. destruct (String.eqb k key) eqn:E.
  - apply String.eqb_eq in E as ->. simpl. now rewrite insert_insert_eq.
  - apply String.eqb_neq in E. simpl. rewrite IH.
    apply insert_insert_ne. congruence.
Qed.

Lemma PageMap_view_get (key : string) (m : PageMap.t) :
  PageMap.get key m = PageMap.view m !! key.
Proof.
  unfold PageMap.view. induction m as [|[k v] rest IH]; [reflexivity|].
  simpl. destruct (String.eqb k key) eqn:E.
  - apply String.eqb_eq in E as ->. now rewrite lookup_insert_eq.
  - apply String.eqb_neq in E. now rewrite lookup_insert_ne.
Qed.

Lemma PageMap_view_remove (key : string) (m : PageMap.t) :
  NoDup (PageMap.keys m) ->
  PageMap.view (PageMap.remove key m) = delete key (PageMap.view m)
  /\ NoDup (PageMap.keys (PageMap.remove key m))
  /\ key ∉ PageMap.keys (PageMap.remove key m).
Proof.
  unfold PageMap.view, PageMap.keys.
  induction m as [|[k v] rest IH]; intros Hnd.
  - simpl. rewrite delete_empty. repeat split; [constructor | apply not_elem_of_nil].
  - simpl in Hnd. apply NoDup_cons in Hnd as [Hk Hrest].
    destruct (IH Hrest) as (IHv & IHn & IHk).
    simpl. destruct (String.eqb k key) eqn:E.
    + apply String.eqb_eq in E as ->.
      rewrite delete_insert_id
        by (apply not_elem_of_list_to_map_1; exact Hk).
      auto.
    + apply String.eqb_neq in E. simpl.
      rewrite IHv, delete_insert_ne by congruence.
      split; [reflexivity|]. split.
      * apply NoDup_cons. split; [|exact IHn].
        intros Hin. apply Hk. clear -Hin.
        induction rest as [|[k' v'] rest IH]; simpl in *; [exact Hin|].
        destruct (String.eqb k' key); simpl in *.
        -- now apply list_elem_of_further.
        -- apply elem_of_cons in Hin as [->|Hin];
             [apply list_elem_of_here | apply list_elem_of_further; auto].
      * intros Hin. apply elem_of_cons in Hin as [->|Hin]; [congruence | auto].
Qed.

End PageMapFacts.

(** X17: the ordered map never holds a key twice, and the finite map kept
    in the world is its faithful view: setting, getting and deleting on
    the ordered map are insert, lookup and delete on the view. *)
Theorem PageMap_refines_store (key : string) (value : Page.t) (m : PageMap.t) :
  NoDup (PageMap.keys m) ->
  NoDup (PageMap.keys (PageMap.set key value m))
  /\ NoDup (PageMap.keys (PageMap.remove key m))
  /\ PageMap.view (PageMap.set key value m) = <[key := value]> (PageMap.view m)
  /\ PageMap.get key m = PageMap.view m !! key
  /\ PageMap.view (PageMap.remove key m) = delete key (PageMap.view m).
Proof.
  intros Hnd.
  destruct (PageMap_view_remove key m Hnd) as (Hview & Hnd' & _).
  split.
  { rewrite PageMap_keys_set. case_decide; [exact Hnd|].
    apply NoDup_app. split; [exact Hnd|]. split; [|apply NoDup_singleton].
    intros x Hx Hx'. apply list_elem_of_singleton in Hx' as ->. auto. }
  split; [exact Hnd'|].
  split; [apply PageMap_view_set|].
  split; [apply PageMap_view_get | exact Hview].
Qed.

Lemma PageMap_refines_store_witness :
  PageMap.get "k" [("k", error_page "k" "u" NonError "t")]
  = PageMap.view [("k", error_page "k" "u" NonError "t")] !! "k".
Proof.
  apply (PageMap_refines_store "k" (error_page "k" "u" NonError "t")
           [("k", error_page "k" "u" NonError "t")]).
  apply NoDup_singleton.
Defined.

(** X18: [getStoredPages] lists the records in the order in which their
    ids were first stored: storing a record under a new id appends it to
    the listing, storing under an id already present replaces the record
    where it stands, and the listing keeps its length and its order of
    ids. *)
Theorem getStoredPages_order (page : Page.t) (m : PageMap.t) :
  (Page.id page ∉ PageMap.keys m ->
   PageMap.getStoredPages (PageMap.storePage page m)
   = PageMap.getStoredPages m ++ [page])
  /\ (Page.id page ∈ PageMap.keys m ->
      PageMap.keys (PageMap.storePage page m) = PageMap.keys m
      /\ length (PageMap.getStoredPages (PageMap.storePage page m))
         = length (PageMap.getStoredPages m)
      /\ page ∈ PageMap.getStoredPages (PageMap.storePage page m)).
Proof.
  unfold PageMap.storePage, PageMap.getStoredPages, PageMap.keys. split.
  - induction m as [|[k v] rest IH]; intros Hout; [reflexivity|].
    simpl in *. destruct (String.eqb k (Page.id page)) eqn:E.
    + apply String.eqb_eq in E as ->. exfalso. apply Hout, list_elem_of_here.
    + simpl. rewrite IH; [reflexivity|].
      intros Hin. apply Hout. now apply list_elem_of_further.
  - intros Hin.
    pose proof (PageMap_keys_set (Page.id page) page m) as Hkeys.
    rewrite decide_True in Hkeys by exact Hin. unfold PageMap.keys in Hkeys.
    split; [exact Hkeys|]. split.
    + apply (f_equal length) in Hkeys. rewrite !length_map in *. exact Hkeys.
    + induction m as [|[k v] rest IH]; [now apply elem_of_nil in Hin|].
      simpl in *. destruct (String.eqb k (Page.id page)) eqn:E.
      * apply list_elem_of_here.
      * apply String.eqb_neq in E. simpl. apply list_elem_of_further.
        apply elem_of_cons in Hin as [Heq|Hin]; [congruence|].
        apply IH; [exact Hin|].
        rewrite PageMap_keys_set. unfold PageMap.keys.
        now rewrite decide_True by exact Hin.
Qed.

(** ** The client's list *)

Section ClientList.

Lemma upsertPage_cons_other (p page : Page.t) (rest : list Page.t) :
  Page.id p <> Page.id page ->
  upsertPage (p :: rest) page = p :: upsertPage rest page.
Proof.
  intros Hne. apply String.eqb_neq in Hne. unfold upsertPage. simpl.
  rewrite Hne. destruct (List.find _ rest); reflexivity.
Qed.

Lemma replace_absent (page : Page.t) (rest : list Page.t) :
  Page.id page ∉ map Page.id rest ->
  map (fun p => if String.eqb (Page.id p) (Page.id page) then page else p) rest
  = rest.
Proof.
  induction rest as [|p rest IH]; intros Hout; [reflexivity|].
  simpl. rewrite IH by (intros Hin; apply Hout; now apply list_elem_of_further).
  destruct (String.eqb (Page.id p) (Page.id page)) eqn:E; [|reflexivity].
  apply String.eqb_eq in E. exfalso. apply Hout. rewrite <- E.
  apply list_elem_of_here.
Qed.

(** On a list without repeated ids the client's update is the [set] of
    the ordered map. *)
Lemma upsertPage_as_set (prev : list Page.t) (page : Page.t) :
  NoDup (map Page.id prev) ->
  map own_entry (upsertPage prev page)
  = PageMap.storePage page (map own_entry prev).
Proof.
  unfold PageMap.storePage.
  induction prev as [|p rest IH]; intros Hnd; [reflexivity|].
  simpl in Hnd. apply NoDup_cons in Hnd as [Hp Hrest].
  destruct (String.eqb (Page.id p) (Page.id page)) eqn:E.
  - unfold upsertPage. simpl. rewrite !E. simpl. rewrite ?E.
    apply String.eqb_eq in E. rewrite E in Hp.
    rewrite (replace_absent page rest Hp). reflexivity.
  - pose proof E as Hne. apply String.eqb_neq in Hne.
    rewrite (upsertPage_cons_other p page rest Hne). simpl. rewrite E.
    rewrite (IH Hrest). reflexivity.
Qed.

Lemma keys_own_entry (l : list Page.t) :
  PageMap.keys (map own_entry l) = map Page.id l.
Proof. unfold PageMap.keys. rewrite map_map. reflexivity. Qed.

Lemma upsertPage_NoDup (prev : list Page.t) (page : Page.t) :
  NoDup (map Page.id prev) -> NoDup (map Page.id (upsertPage prev page)).
Proof.
  intros Hnd. rewrite <- keys_own_entry, (upsertPage_as_set prev page Hnd).
  unfold PageMap.storePage. rewrite PageMap_keys_set, keys_own_entry.
  case_decide; [exact Hnd|].
  apply NoDup_app. split; [exact Hnd|]. split; [|apply NoDup_singleton].
  intros x Hx Hx'. apply list_elem_of_singleton in Hx' as ->. auto.
Qed.

Lemma client_fold (events : list Event) :
  forall prev,
    NoDup (map Page.id prev) ->
    let shown :=
      fold_left (fun prev data =>
                   match data with
                   | EvPage page => upsertPage prev page
                   | _ => prev
                   end) events prev in
    NoDup (map Page.id shown)
    /\ map own_entry shown
       = fold_left (fun m data =>
                      match data with
                      | EvPage page => PageMap.storePage page m
                      | _ => m
                      end) events (map own_entry prev).
Proof.
  induction events as [|data events IH]; intros prev Hnd; [auto|].
  simpl. destruct data as [progress|page|n|msg]; try (now apply IH).
  rewrite <- (upsertPage_as_set prev page Hnd).
  apply IH. now apply upsertPage_NoDup.
Qed.

Lemma removePage_as_remove (prev : list Page.t) (pageId : string) :
  NoDup (map Page.id prev) ->
  map own_entry (removePage prev pageId)
  = PageMap.remove pageId (map own_entry prev).
Proof.
  induction prev as [|p rest IH]; intros Hnd; [reflexivity|].
  simpl in Hnd. apply NoDup_cons in Hnd as [Hp Hrest].
  simpl. destruct (String.eqb (Page.id p) pageId) eqn:E; simpl.
  - rewrite (IH Hrest). apply String.eqb_eq in E. subst pageId.
    clear -Hp. induction rest as [|q rest IH]; [reflexivity|].
    simpl. destruct (String.eqb (Page.id q) (Page.id p)) eqn:E.
    + apply String.eqb_eq in E. exfalso. apply Hp. rewrite <- E.
      apply list_elem_of_here.
    + rewrite IH; [reflexivity|].
      intros Hin. apply Hp. now apply list_elem_of_further.
  - now rewrite (IH Hrest).
Qed.

End ClientList.

(** X19: whatever events arrive, the list of pages the client builds from
    them never shows an id twice, and it is the listing that
    [getStoredPages] gives for a store in which the records of the page
    events were stored in the same order: client and server agree. *)
Theorem clientPages_agree_with_store (events : list Event) :
  NoDup (map Page.id (clientPages events))
  /\ clientPages events = PageMap.getStoredPages (stored_by events).
Proof.
  destruct (client_fold events [] (NoDup_nil_2 (A:=string))) as [Hnd Hsame].
  split; [exact Hnd|].
  unfold clientPages, stored_by, PageMap.getStoredPages.
  simpl in Hsame. rewrite <- Hsame, map_map. simpl. now rewrite map_id.
Qed.

(** X20: on a list without repeated ids, removing an id in the client is
    the delete of the ordered map: the entry with that id is gone, the
    others stay in their order, and the ids stay distinct. *)
Theorem removePage_agrees_with_delete (prev : list Page.t) (pageId : string) :
  NoDup (map Page.id prev) ->
  map own_entry (removePage prev pageId)
  = PageMap.remove pageId (map own_entry prev)
  /\ (pageId ∉ map Page.id (removePage prev pageId))
  /\ NoDup (map Page.id (removePage prev pageId)).
Proof.
  intros Hnd.
  pose proof (removePage_as_remove prev pageId Hnd) as Hsame.
  destruct (PageMap_view_remove pageId (map own_entry prev)) as (_ & Hnd' & Hout).
  { now rewrite keys_own_entry. }
  rewrite <- Hsame, keys_own_entry in Hnd', Hout. auto.
Qed.

Lemma removePage_agrees_with_delete_witness :
  map own_entry (removePage [error_page "a" "u" NonError "t";
                             error_page "b" "v" NonError "t"] "a")
  = PageMap.remove "a" (map own_entry [error_page "a" "u" NonError "t";
                                       error_page "b" "v" NonError "t"]).
Proof.
  apply (removePage_agrees_with_delete
           [error_page "a" "u" NonError "t"; error_page "b" "v" NonError "t"] "a").
  simpl. apply NoDup_cons. split.
  - intros Hin. apply list_elem_of_singleton in Hin. discriminate.
  - apply NoDup_singleton.
Defined.

(** ** The text clean-up of [extractMainContent] *)

Section CleanFacts.

Lemma all_chars_app (p : ascii -> bool) (a b : string) :
  all_chars p (a +:+ b) = all_chars p a && all_chars p b.
Proof.
  induction a as [|c a IH]; [reflexivity|].
  rewrite app_cons. simpl. rewrite IH. apply andb_assoc.
Qed.

Lemma collapse_plain (s : string) (in_run : bool) :
  all_chars plain_char (Clean.collapse_whitespace s in_run) = true.
Proof.
  revert in_run; induction s as [|c r IH]; intros in_run; [reflexivity|].
  simpl. destruct (Js.is_space c) eqn:Hc.
  - destruct in_run; simpl; rewrite ?IH; reflexivity.
  - simpl. rewrite IH. unfold plain_char. now rewrite Hc.
Qed.

(** A text whose only whitespace is the plain space has no line feed and
    no tab: the two replacements that look for them find nothing. *)
Lemma replace_blank_lines_plain (s : string) :
  all_chars plain_char s = true -> Clean.replace_blank_lines s 0 = s.
Proof.
  induction s as [|c r IH]; [reflexivity|].
  simpl. intros H. apply andb_prop in H as [Hc Hr].
  destruct (Ascii.eqb c "010") eqn:E.
  - apply Ascii.eqb_eq in E. subst c. discriminate.
  - now rewrite (IH Hr).
Qed.

Lemma tabs_to_spaces_plain (s : string) :
  all_chars plain_char s = true -> Clean.tabs_to_spaces s = s.
Proof.
  induction s as [|c r IH]; [reflexivity|].
  simpl. intros H. apply andb_prop in H as [Hc Hr].
  destruct (Ascii.eqb c "009") eqn:E.
  - apply Ascii.eqb_eq in E. subst c. discriminate.
  - now rewrite (IH Hr).
Qed.

Lemma trimStart_chars (p : ascii -> bool) (s : string) :
  all_chars p s = true -> all_chars p (Js.trimStart s) = true.
Proof.
  induction s as [|c r IH]; [reflexivity|].
  intros H. simpl. destruct (Js.is_space c); [|exact H].
  simpl in H. apply andb_prop in H as [_ Hr]. now apply IH.
Qed.

Lemma trimEnd_chars (p : ascii -> bool) (s : string) :
  all_chars p s = true -> all_chars p (Js.trimEnd s) = true.
Proof.
  induction s as [|c r IH]; [reflexivity|].
  intros H. simpl in H. apply andb_prop in H as [Hc Hr].
  specialize (IH Hr). simpl.
  destruct (Js.trimEnd r) as [|d t].
  - destruct (Js.is_space c); simpl; rewrite ?Hc; reflexivity.
  - change (all_chars p (String c (String d t)) = true).
    simpl in *. now rewrite Hc, IH.
Qed.

Lemma remove_phrase_chars (p : ascii -> bool) (phrase s : string) :
  forall skip,
    all_chars p s = true -> all_chars p (Clean.remove_phrase phrase s skip) = true.
Proof.
  induction s as [|c r IH]; intros skip H; [reflexivity|].
  simpl in H. apply andb_prop in H as [Hc Hr].
  cbn [Clean.remove_phrase]. destruct skip as [|k]; [|now apply IH].
  destruct (Clean.starts_with_ci (String c r) phrase); [now apply IH|].
  simpl. now rewrite Hc, IH.
Qed.

Lemma substring_chars (p : ascii -> bool) (n : nat) (s : string) :
  all_chars p s = true -> all_chars p (String.substring 0 n s) = true.
Proof.
  revert s; induction n as [|n IH]; intros [|c r] H; try reflexivity.
  simpl in *. apply andb_prop in H as [Hc Hr]. now rewrite Hc, IH.
Qed.

Lemma collapse_blank (s : string) :
  all_space s = true ->
  Clean.collapse_whitespace s true = ""
  /\ (Clean.collapse_whitespace s false = ""
      \/ Clean.collapse_whitespace s false = " ").
Proof.
  induction s as [|c r IH]; intros H; [auto|].
  simpl in H. apply andb_prop in H as [Hc Hr].
  destruct (IH Hr) as [Ht _]. simpl. rewrite Hc, Ht. auto.
Qed.

Lemma remove_phrase_empty (phrase : string) (skip : nat) :
  Clean.remove_phrase phrase "" skip = "".
Proof. reflexivity. Qed.

End CleanFacts.

(** X21: the cleaned content has at most 15000 characters, and its only
    whitespace characters are plain spaces: no tab, line feed or other
    space character survives.  A text made of whitespace only is cleaned
    to the empty string. *)
Theorem cleanContent_bounded_and_plain (content : string) :
  strlen (Clean.cleanContent content) <= 15000
  /\ all_chars plain_char (Clean.cleanContent content) = true
  /\ (all_space content = true -> Clean.cleanContent content = "").
Proof.
  unfold Clean.cleanContent, Js.substring.
  rewrite Nat.min_0_l, Nat.max_0_l, Nat.sub_0_r.
  split; [apply strlen_substring_le|]. split.
  - apply substring_chars. do 4 apply remove_phrase_chars.
    unfold Js.trim. apply trimEnd_chars, trimStart_chars.
    rewrite replace_blank_lines_plain, tabs_to_spaces_plain;
      apply collapse_plain.
  - intros Hblank.
    rewrite replace_blank_lines_plain, tabs_to_spaces_plain
      by apply collapse_plain.
    destruct (collapse_blank content Hblank) as [_ [->| ->]]; reflexivity.
Qed.

(** X22: after the first replacement, which turns every run of whitespace
    into one space, the second and the third replacement (of blank lines
    and of tabs) never change the text. *)
Theorem cleanContent_dead_replacements (content : string) :
  Clean.replace_blank_lines (Clean.collapse_whitespace content false) 0
  = Clean.collapse_whitespace content false
  /\ Clean.tabs_to_spaces (Clean.collapse_whitespace content false)
     = Clean.collapse_whitespace content false.
Proof.
  split; [apply replace_blank_lines_plain | apply tabs_to_spaces_plain];
    apply collapse_plain.
Qed.

Example cleanContent_ex :
  Clean.cleanContent "  Skip to content
   MENU  Hello	world.   search  Bye "
  = "  Hello world.  Bye".
Proof. vm_compute. reflexivity. Qed.

(** ** The API routes *)

Section RouteFacts.

Lemma export_char_safe (c : ascii) :
  name_char (PdfExport.lower_char (if PdfExport.keeps c then c else "_"%char))
  = true.
Proof. destruct c as [[] [] [] [] [] [] [] []]; reflexivity. Qed.

Lemma export_name_safe (title : string) :
  all_chars name_char (PdfExport.toLowerCase (PdfExport.replace_others title))
  = true
  /\ strlen (PdfExport.toLowerCase (PdfExport.replace_others title))
     = strlen title.
Proof.
  induction title as [|c r [IHsafe IHlen]]; [auto|].
  simpl. rewrite export_char_safe, IHsafe, IHlen. auto.
Qed.

End RouteFacts.

(** X23: the export route changes nothing in the world.  For an id that is
    not stored it answers 404, when the generator throws it answers 500,
    and otherwise it answers the PDF with a [Content-Disposition] whose
    file name is as long as the title and made of lowercase letters,
    digits and underscores only, followed by ".pdf": no character of the
    title can end the quoted name or add a header. *)
Theorem export_GET_reply
    (generatePDF : Page.t -> outcome string) (id : string) (w : World) :
  match pages w !! id with
  | None =>
      export_GET generatePDF (Returned id) w
      = (w, Returned (ReplyError 404 "Page not found"))
  | Some page =>
      match generatePDF page with
      | Threw _ =>
          export_GET generatePDF (Returned id) w
          = (w, Returned (ReplyError 500 "Failed to generate PDF"))
      | Returned pdfBuffer =>
          exists name,
            export_GET generatePDF (Returned id) w
            = (w, Returned
                    (ReplyPdf pdfBuffer
                       ("attachment; filename=" +:+ PdfExport.quote
                        +:+ (name +:+ ".pdf") +:+ PdfExport.quote)))
            /\ strlen name = strlen (Page.title page)
            /\ all_chars name_char name = true
      end
  end.
Proof.
  unfold export_GET, try_catch, bind, lift, getPageById, ret.
  destruct (pages w !! id) as [page|]; [|reflexivity].
  destruct (generatePDF page) as [pdfBuffer|e]; [|reflexivity].
  exists (PdfExport.toLowerCase (PdfExport.replace_others (Page.title page))).
  destruct (export_name_safe (Page.title page)) as [Hsafe Hlen].
  split; [reflexivity | auto].
Qed.

(** X24: the re-crawl route never throws.  It answers 500 only when the
    request body cannot be read and 400, with the world unchanged, when
    the URL is missing or empty; for any other URL it answers the record
    crawled for that URL, and a following [GET] of the record's id
    answers the same record. *)
Theorem recrawl_POST_then_GET
    (P : Platform) (body : outcome (option string)) (w : World) :
  match body with
  | Threw _ =>
      recrawl_POST P body w
      = (w, Returned (ReplyError 500 "Failed to re-crawl page"))
  | Returned None =>
      recrawl_POST P body w = (w, Returned (ReplyError 400 "URL is required"))
  | Returned (Some url) =>
      if String.eqb url "" then
        recrawl_POST P body w = (w, Returned (ReplyError 400 "URL is required"))
      else
        exists page w',
          recrawl_POST P body w = (w', Returned (ReplyPage page))
          /\ Page.url page = url
          /\ page_GET (Returned (Page.id page)) w'
             = (w', Returned (ReplyPage page))
  end.
Proof.
  destruct body as [[url|]|e]; try reflexivity.
  destruct (String.eqb url "") eqn:Hempty.
  - unfold recrawl_POST, try_catch, bind, lift. rewrite Hempty. reflexivity.
  - destruct (crawlSinglePage_cases P url w)
      as (page & w' & Hrun & Hstored & _ & Hurl & _).
    exists page, w'. split; [|split; [exact Hurl|]].
    + unfold recrawl_POST, try_catch, bind, lift. rewrite Hempty, Hrun.
      reflexivity.
    + unfold page_GET, try_catch, bind, lift, getPageById. rewrite Hstored.
      reflexivity.
Qed.

(** X25: the delete route answers success for every id, stored or not;
    afterwards a [GET] of that id answers 404 and the answers for the
    other ids are as before; deleting an id that is not stored leaves the
    world unchanged. *)
Theorem page_DELETE_then_GET (id : string) (w : World) :
  exists w1,
    page_DELETE (Returned id) w = (w1, Returned ReplySuccess)
    /\ page_GET (Returned id) w1
       = (w1, Returned (ReplyError 404 "Page not found"))
    /\ (forall other, other <> id ->
          (page_GET (Returned other) w1).2 = (page_GET (Returned other) w).2)
    /\ (pages w !! id = None -> w1 = w).
Proof.
  exists (deletePage id w).1. split; [reflexivity|].
  unfold page_GET, try_catch, bind, lift, getPageById, deletePage.
  cbn [fst snd pages]. split; [now rewrite lookup_delete_eq|]. split.
  - intros other Hne. rewrite lookup_delete_ne by congruence.
    destruct (pages w !! other); reflexivity.
  - intros Hnone. rewrite delete_id by exact Hnone. now destruct w.
Qed.

(** ** ContentExtractor, continued *)

Section WordsMore.

Lemma Tokens_prepend_blank (pre s : string) (ts : list string) :
  all_space pre = true -> Tokens s ts -> Tokens (pre +:+ s) ts.
Proof.
  induction pre as [|c pre IH]; intros Hpre Hs; [exact Hs|].
  simpl in Hpre. apply andb_prop in Hpre as [Hc Hpre].
  rewrite app_cons. apply Tokens_cons_space; auto.
Qed.

(** The tokens of two texts joined by a whitespace character. *)
Lemma Tokens_join (a b : string) (c : ascii) (ta tb : list string) :
  Js.is_space c = true ->
  Tokens a ta -> Tokens b tb -> Tokens (a +:+ String c b) (ta ++ tb).
Proof.
  intros Hc Ha Hb.
  induction Ha as [a Hblank | pre word rest ts Hpre Hne Hword Hbound _ IH].
  - apply Tokens_prepend_blank; [exact Hblank|].
    now apply Tokens_cons_space.
  - rewrite !app_assoc_str. simpl. apply Tokens_word; auto.
    destruct rest as [|d rest]; [exact Hc | exact Hbound].
Qed.

Lemma split_without_separator (sep : ascii -> bool) (s : string) (b : bool) :
  all_chars (fun c => negb (sep c)) s = true -> Js.split_from sep s b = [s].
Proof.
  revert b; induction s as [|c r IH]; intros b H; [reflexivity|].
  simpl in H. apply andb_prop in H as [Hc Hr]. apply negb_true_iff in Hc.
  simpl. rewrite Hc, (IH false Hr). reflexivity.
Qed.

End WordsMore.

(** X26: the word count is additive over whitespace: the count of two
    texts joined by a whitespace character is the sum of their counts. *)
Theorem countWords_join (a b : string) (c : ascii) :
  Js.is_space c = true ->
  countWords (a +:+ String c b) = countWords a + countWords b.
Proof.
  intros Hc.
  destruct (countWords_Tokens a) as (ta & Hta & _ & ->).
  destruct (countWords_Tokens b) as (tb & Htb & _ & ->).
  destruct (countWords_Tokens (a +:+ String c b)) as (t & _ & Huniq & ->).
  rewrite <- (Huniq _ (Tokens_join a b c ta tb Hc Hta Htb)).
  apply length_app.
Qed.

Lemma countWords_join_witness :
  countWords ("Hello world." +:+ String "010" "This works.")
  = countWords "Hello world." + countWords "This works.".
Proof. apply (countWords_join "Hello world." "This works." "010"). reflexivity. Defined.

(** X27: the word count is 0 exactly for the contents made of whitespace
    only, the empty content among them. *)
Theorem countWords_zero_iff_blank (content : string) :
  countWords content = 0 <-> all_space content = true.
Proof.
  destruct (countWords_Tokens content) as (tokens & Htok & Huniq & ->).
  split.
  - intros Hlen. destruct tokens; [|discriminate].
    remember [] as none eqn:E in Htok. destruct Htok; [assumption|discriminate].
  - intros Hblank. now rewrite <- (Huniq [] (Tokens_blank content Hblank)).
Qed.

(** X28: for a content without any of the characters . ! ? the summary is
    decided by the trimmed content alone: a period if it has at most 20
    characters, the trimmed content and a period if it has at most 300,
    and otherwise its first 300 characters and three periods. *)
Theorem generateSummary_one_fragment (content : string) :
  all_chars (fun c => negb (sentence_end c)) content = true ->
  generateSummary content
  = if strlen (Js.trim content) <=? 20 then "."
    else if 300 <? strlen (Js.trim content)
         then Js.substring (Js.trim content) 0 300 +:+ "..."
         else Js.trim content +:+ ".".
Proof.
  intros Hplain. unfold generateSummary, Js.split.
  rewrite (split_without_separator sentence_end content false Hplain).
  simpl List.filter.
  destruct (strlen (Js.trim content) <=? 20) eqn:Hshort.
  - apply Nat.leb_le in Hshort.
    replace (20 <? strlen (Js.trim content)) with false
      by (symmetry; apply Nat.ltb_ge; exact Hshort).
    reflexivity.
  - apply Nat.leb_gt in Hshort.
    replace (20 <? strlen (Js.trim content)) with true
      by (symmetry; apply Nat.ltb_lt; exact Hshort).
    reflexivity.
Qed.

Lemma generateSummary_one_fragment_witness :
  generateSummary "  A heading without any punctuation  "
  = "A heading without any punctuation.".
Proof.
  rewrite (generateSummary_one_fragment "  A heading without any punctuation  ");
    reflexivity.
Defined.

(** ** The client's list after a run *)

Section ClientRun.

Lemma upsertPage_new (prev : list Page.t) (page : Page.t) :
  Page.id page ∉ map Page.id prev -> upsertPage prev page = prev ++ [page].
Proof.
  intros Hout. unfold upsertPage.
  destruct (List.find _ prev) as [p|] eqn:Hfind; [|reflexivity].
  apply find_some in Hfind as [Hin Heq]. apply String.eqb_eq in Heq.
  exfalso. apply Hout. rewrite <- Heq. apply list_elem_of_fmap.
  exists p. split; [reflexivity | now apply list_elem_of_In].
Qed.

Lemma client_page_events (totalPages : nat) (urls : list string) :
  forall (records prev : list Page.t) (done : nat),
    length urls = length records ->
    NoDup (map Page.id (prev ++ records)) ->
    fold_left (fun prev data =>
                 match data with
                 | EvPage page => upsertPage prev page
                 | _ => prev
                 end) (page_events totalPages done urls records) prev
    = prev ++ records.
Proof.
  induction urls as [|url urls IH]; intros [|r records] prev done Hlen Hnd;
    try discriminate; simpl.
  - now rewrite app_nil_r.
  - rewrite upsertPage_new.
    + rewrite (IH records (prev ++ [r]) (S done)).
      * now rewrite <- app_assoc.
      * simpl in Hlen. lia.
      * now rewrite <- app_assoc.
    + rewrite map_app in Hnd. apply NoDup_app in Hnd as (_ & Hdisj & _).
      intros Hin. apply (Hdisj _ Hin). simpl. apply list_elem_of_here.
Qed.

End ClientRun.

(** X29: when the generated ids are pairwise different, the callback
    returns normally on every event and discovery returns [urls], the list
    of pages that the client builds from the events of the run has exactly
    one entry per discovered URL, each for that URL, in the order of
    discovery. *)
Theorem clientPages_after_run
    (P : Platform) (startUrl : string) (callback : ProgressCallback)
    (w w0 : World) (urls : list string) :
  (forall m n, random_id P m = random_id P n -> m = n) ->
  quiet callback ->
  discoverUrls P startUrl w = (w0, Returned urls) ->
  Forall2 (fun url page => Page.url page = url) urls
    (clientPages (drop (length (delivered w))
                    (delivered (crawlWebsite P startUrl callback w).1)))
  /\ length (clientPages (drop (length (delivered w))
                            (delivered (crawlWebsite P startUrl callback w).1)))
     = length urls.
Proof.
  intros Hinj Hquiet Hdisc.
  destruct (crawlWebsite_run P startUrl callback w Hquiet) as [_ Hrun].
  pose proof (discoverUrls_delivered P startUrl w) as Hd0.
  rewrite Hdisc in Hrun, Hd0. cbn [fst] in Hd0.
  destruct Hrun as (records & Hall & Hd & _ & Hstored).
  destruct (Hstored Hinj) as [_ Hnd].
  assert (Hshown :
            clientPages (drop (length (delivered w))
                           (delivered (crawlWebsite P startUrl callback w).1))
            = records).
  { rewrite Hd, Hd0, drop_app_length. unfold clientPages.
    cbn [fold_left]. rewrite fold_left_app.
    rewrite (client_page_events (length urls) urls records [] 0
               (Forall2_length _ _ _ Hall) Hnd).
    reflexivity. }
  rewrite Hshown. split; [exact Hall | symmetry; exact (Forall2_length _ _ _ Hall)].
Qed.

Lemma clientPages_after_run_witness :
  Forall2 (fun url page => Page.url page = url) ["https://example.com/x"]
    (clientPages (drop (length (delivered Demo.start))
                    (delivered (crawlWebsite Flaky.platform
                                  "https://example.com/x" Demo.sink
                                  Demo.start).1)))
  /\ length (clientPages (drop (length (delivered Demo.start))
                            (delivered (crawlWebsite Flaky.platform
                                          "https://example.com/x" Demo.sink
                                          Demo.start).1)))
     = length ["https://example.com/x"].
Proof.
  apply (clientPages_after_run Flaky.platform "https://example.com/x" Demo.sink
           Demo.start
           {| requests := ["https://example.com/x"; "https://example.com/x"];
              entropy := 0; pages := ∅; delivered := [] |}
           ["https://example.com/x"] unary_id_inj).
  - intros history data. reflexivity.
  - vm_compute. reflexivity.
Defined.
